(** * Sortition of the pos33 consensus plugin (plugin/consensus/pos33/sortition.go)

    A shallow embedding of the sortition engine: the ticket hasher
    ([hash2] over the text built by [fmt.Sprintf]), the threshold test on
    [big.Float], the worker-pool scheduler [doSort], the controller
    [committeeSort] and the verifier [verifySort], followed by the
    properties of the specification that they satisfy or fail. *)

From Stdlib Require Import ZArith List Bool Lia.
From Stdlib Require Import Strings.String Strings.Ascii Strings.Byte.
From Stdlib Require Import QArith Qpower Permutation.
From Stdlib Require Lists.Finite.
From Stdlib Require Import DecimalString HexadecimalString.
From Stdlib Require DecimalPos DecimalN DecimalZ DecimalFacts.
From Stdlib Require Import Floats.SpecFloat.
Import ListNotations.

Local Open Scope Z_scope.

(** ** Byte slices *)

(** A Go [[]byte]; the nil slice and the empty slice are both [[]]. *)
Definition bytes := list byte.

Definition byte_val (b : byte) : Z := Z.of_N (Byte.to_N b).

Definition byte_of (z : Z) : byte :=
  match Byte.of_N (Z.to_N (z mod 256)) with
  | Some b => b
  | None => x00
  end.

Definition bytes_eqb (a b : bytes) : bool :=
  if list_eq_dec Byte.byte_eq_dec a b then true else false.

(** ** Machine integers: Go's [int] (64 bits on the supported targets),
    [int64] and [int32], as [Z] with the wrap-around written out. *)

Definition wrap (w : Z) (x : Z) : Z :=
  (x + 2 ^ (w - 1)) mod 2 ^ w - 2 ^ (w - 1).

Definition int64 (x : Z) : Z := wrap 64 x.
Definition int32 (x : Z) : Z := wrap 32 x.
(** [int(x)]: conversion to the platform [int]. *)
Definition int (x : Z) : Z := wrap 64 x.

Definition in_int64 (x : Z) : Prop := - 2 ^ 63 <= x < 2 ^ 63.
Definition in_int32 (x : Z) : Prop := - 2 ^ 31 <= x < 2 ^ 31.

(** ** crypto.Sha256: SHA-256 (FIPS 180-4) over byte slices *)

Module SHA256.

Definition w32 (x : Z) : Z := x mod 2 ^ 32.
Definition add32 (x y : Z) : Z := w32 (x + y).
Definition rotr (n x : Z) : Z :=
  w32 (Z.lor (Z.shiftr x n) (Z.shiftl x (32 - n))).
Definition shr (n x : Z) : Z := Z.shiftr x n.

Definition Ch (x y z : Z) : Z :=
  Z.lxor (Z.land x y) (Z.land (Z.lnot x) z).
Definition Maj (x y z : Z) : Z :=
  Z.lxor (Z.lxor (Z.land x y) (Z.land x z)) (Z.land y z).
Definition Sigma0 (x : Z) : Z :=
  Z.lxor (Z.lxor (rotr 2 x) (rotr 13 x)) (rotr 22 x).
Definition Sigma1 (x : Z) : Z :=
  Z.lxor (Z.lxor (rotr 6 x) (rotr 11 x)) (rotr 25 x).
Definition sigma0 (x : Z) : Z :=
  Z.lxor (Z.lxor (rotr 7 x) (rotr 18 x)) (shr 3 x).
Definition sigma1 (x : Z) : Z :=
  Z.lxor (Z.lxor (rotr 17 x) (rotr 19 x)) (shr 10 x).

(** The primes below 312: the first 64 primes. *)
Definition is_prime (p : Z) : bool :=
  forallb (fun d => negb (p mod Z.of_nat d =? 0)) (seq 2 (Z.to_nat p - 2)).

Definition primes : list Z :=
  Eval vm_compute in filter is_prime (map Z.of_nat (seq 2 310)).

(** The integer cube root, bit by bit from bit [bits - 1] down. *)
Fixpoint root3 (bits : nat) (n r : Z) : Z :=
  match bits with
  | O => r
  | S b =>
      let c := r + 2 ^ Z.of_nat b in
      if c * c * c <=? n then root3 b n c else root3 b n r
  end.

(** The round constants: the first 32 bits of the fractional parts of the
    cube roots of the first 64 primes. *)
Definition K : list Z :=
  Eval vm_compute in map (fun p => w32 (root3 40 (p * 2 ^ 96) 0)) primes.

(** The initial hash value: the first 32 bits of the fractional parts of
    the square roots of the first 8 primes. *)
Definition H0 : list Z :=
  Eval vm_compute in map (fun p => w32 (Z.sqrt (p * 2 ^ 64))) (firstn 8 primes).

(** Big-endian bytes of the low [n] bytes of [x]. *)
Fixpoint be_bytes (n : nat) (x : Z) : list Z :=
  match n with
  | O => []
  | S k => (Z.shiftr x (8 * Z.of_nat k)) mod 256 :: be_bytes k x
  end.

Definition be_word (bs : list Z) : Z :=
  fold_left (fun acc b => acc * 256 + b) bs 0.

(** Message padding: a one bit, zeros up to 56 modulo 64, then the bit
    length on eight bytes. *)
Definition pad (msg : list Z) : list Z :=
  let len := Z.of_nat (List.length msg) in
  msg ++ [128] ++ repeat 0 (Z.to_nat ((55 - len) mod 64))
      ++ be_bytes 8 (8 * len).

Fixpoint words (n : nat) (bs : list Z) : list Z :=
  match n with
  | O => []
  | S k => be_word (firstn 4 bs) :: words k (skipn 4 bs)
  end.

(** Message schedule: [W] extended from 16 to 64 words. *)
Fixpoint schedule (fuel : nat) (w : list Z) : list Z :=
  match fuel with
  | O => w
  | S k =>
      let t := List.length w in
      let g (d : nat) := nth (t - d) w 0 in
      schedule k
        (w ++ [w32 (sigma1 (g 2%nat) + g 7%nat + sigma0 (g 15%nat) + g 16%nat)])
  end.

Record regs := mkRegs { ra : Z; rb : Z; rc : Z; rd : Z;
                        re : Z; rf : Z; rg : Z; rh : Z }.

Definition round (s : regs) (kw : Z * Z) : regs :=
  let '(k, w) := kw in
  let t1 := w32 (rh s + Sigma1 (re s) + Ch (re s) (rf s) (rg s) + k + w) in
  let t2 := w32 (Sigma0 (ra s) + Maj (ra s) (rb s) (rc s)) in
  mkRegs (add32 t1 t2) (ra s) (rb s) (rc s)
         (add32 (rd s) t1) (re s) (rf s) (rg s).

Definition regs_of (h : list Z) : regs :=
  mkRegs (nth 0 h 0) (nth 1 h 0) (nth 2 h 0) (nth 3 h 0)
         (nth 4 h 0) (nth 5 h 0) (nth 6 h 0) (nth 7 h 0).

Definition list_of (s : regs) : list Z :=
  [ra s; rb s; rc s; rd s; re s; rf s; rg s; rh s].

Definition compress (h : list Z) (block : list Z) : list Z :=
  let w := schedule 48 (words 16 block) in
  let s := fold_left round (combine K w) (regs_of h) in
  map (fun p => add32 (fst p) (snd p)) (combine (list_of (regs_of h)) (list_of s)).

Fixpoint blocks (fuel : nat) (h : list Z) (bs : list Z) : list Z :=
  match fuel with
  | O => h
  | S k =>
      match bs with
      | [] => h
      | _ => blocks k (compress h (firstn 64 bs)) (skipn 64 bs)
      end
  end.

Definition digest (msg : list Z) : list Z :=
  let p := pad msg in
  flat_map (be_bytes 4) (blocks (List.length p) H0 p).

(** [sha256.Sum256] of a byte slice, as a slice. *)
Definition Sum256 (b : bytes) : bytes :=
  map byte_of (digest (map byte_val b)).

End SHA256.

(** [crypto.Sha256] of chain33: [sha256.Sum256(b)] returned as a slice. *)
Definition Sha256 (b : bytes) : bytes := SHA256.Sum256 b.

(** [hash2]: SHA-256 applied twice. *)
Definition hash2 (data : bytes) : bytes := Sha256 (Sha256 data).

(** ** fmt.Sprintf("%x+%d+%d", ...), as package fmt builds the text *)

Module Fmt.

(** [ldigits], the digit table of package fmt. *)
Definition ldigits : string := "0123456789abcdefx".

Definition digit (i : Z) : ascii :=
  match String.get (Z.to_nat i) ldigits with
  | Some c => c
  | None => "0"%char
  end.

(** The verb [%x] on a byte slice ([fmtSbx]): for each byte [c] the digits
    [ldigits[c>>4]] and [ldigits[c&0xF]]. *)
Fixpoint hex (b : bytes) : string :=
  match b with
  | [] => EmptyString
  | x :: r =>
      let c := byte_val x in
      String (digit (Z.shiftr c 4)) (String (digit (Z.land c 15)) (hex r))
  end.

(** The loop of [fmtInteger] in base 10, writing the digits of [u] from
    the last one backwards in front of [acc]:
    [[
      for u >= 10 { i--; next := u / 10; buf[i] = byte('0' + u - next*10); u = next }
      i--; buf[i] = byte('0' + u)
    ]] *)
Fixpoint fmt_digits (fuel : nat) (u : Z) (acc : string) : string :=
  match fuel with
  | O => acc
  | S f =>
      if 10 <=? u then
        let next := u / 10 in
        fmt_digits f next (String (digit (u - next * 10)) acc)
      else String (digit u) acc
  end.

(** The verb [%d] on a signed integer: the digits of the absolute value,
    after a minus sign for a negative one. *)
Definition dec (z : Z) : string :=
  let u := Z.abs z in
  let s := fmt_digits (S (Z.to_nat (Z.log2 u))) u EmptyString in
  if z <? 0 then String "-" s else s.

(** [fmt.Sprintf("%x+%d+%d", v, index, num)]. *)
Definition sprintf_x_d_d (v : bytes) (index num : Z) : string :=
  (hex v ++ "+" ++ dec index ++ "+" ++ dec num)%string.

End Fmt.

(** [[]byte(s)]: the bytes of a Go string. *)
Definition bytes_of_string (s : string) : bytes := list_byte_of_string s.

(** ** Panics

    [big.NewFloat] and [big.Float.Quo] panic with [ErrNaN]; a function that
    can reach them returns a [result]. *)

Inductive result (A : Type) : Type :=
| Ok (a : A)
| Panic (what : string).
Arguments Ok {A} a.
Arguments Panic {A} what.

Definition bind {A B : Type} (r : result A) (k : A -> result B) : result B :=
  match r with
  | Ok a => k a
  | Panic w => Panic w
  end.

Notation "x <- c1 ;; c2" := (bind c1 (fun x => c2))
  (at level 61, c1 at next level, right associativity).

(** A Go [float64], by its IEEE 754 datum. *)
Definition float64 := spec_float.

(** ** math/big *)

Module Big.

(** [Int.SetBytes]: the slice read as a big-endian unsigned integer. *)
Definition SetBytes (b : bytes) : Z :=
  fold_left (fun acc x => acc * 256 + byte_val x) b 0.

(** [Int.BitLen]: length of the absolute value in bits, 0 for 0. *)
Definition BitLen (x : Z) : Z :=
  if x =? 0 then 0 else Z.log2 (Z.abs x) + 1.

(** [Int.Lsh]. *)
Definition Lsh (x : Z) (n : Z) : Z := Z.shiftl x n.

Inductive form := zero | finite | inf.

(** A [big.Float]: (-1)^neg * mant * 2^exp, of precision [prec].  Go keeps
    the mantissa left-aligned in machine words (0.5 <= mantissa < 1); here
    [mant] is the integer made of its bits and [exp] is scaled to it.  The
    rounding mode is always the zero value, [ToNearestEven]. *)
Record Float := mkFloat {
  prec : Z;
  neg : bool;
  fform : form;
  mant : Z;
  exp : Z
}.

(** [new(big.Float)]: the zero value, of precision 0. *)
Definition new_Float : Float := mkFloat 0 false zero 0 0.

(** [Float.round]: the mantissa [m] cut to [p] bits, to nearest even;
    [sbit] tells that bits below the mantissa were already lost. *)
Definition round (p : Z) (m e : Z) (sbit : bool) : Z * Z :=
  let bits := BitLen m in
  if bits <=? p then (m, e)
  else
    let r := bits - p in
    let q := Z.shiftr m r in
    let rbit := Z.testbit m (r - 1) in
    let sticky := sbit || negb (m mod 2 ^ (r - 1) =? 0) in
    let inc := rbit && (sticky || Z.odd q) in
    ((if inc then q + 1 else q), e + r).

(** [z.SetInt(x)]. *)
Definition SetInt (z : Float) (x : Z) : Float :=
  let bits := BitLen x in
  let p := if prec z =? 0 then Z.max bits 64 else prec z in
  if x =? 0 then mkFloat p (x <? 0) zero 0 0
  else
    let '(m, e) := round p (Z.abs x) 0 false in
    mkFloat p (x <? 0) finite m e.

(** [Float.uquo]: the quotient of the mantissas carried to at least one bit
    more than the precision, the remainder giving the sticky bit. *)
Definition uquo (p : Z) (x y : Float) : Z * Z :=
  let k := Z.max 0 (p + 1 + BitLen (mant y) - BitLen (mant x)) in
  let n := Z.shiftl (mant x) k in
  round p (n / mant y) (exp x - exp y - k) (negb (n mod mant y =? 0)).

(** [z.Quo(x, y)]. *)
Definition Quo (z x y : Float) : result Float :=
  let p := if prec z =? 0 then Z.max (prec x) (prec y) else prec z in
  let s := xorb (neg x) (neg y) in
  match fform x, fform y with
  | finite, finite =>
      let '(m, e) := uquo p x y in Ok (mkFloat p s finite m e)
  | zero, zero | inf, inf =>
      Panic "division of zero by zero or infinity by infinity"
  | zero, _ | _, inf => Ok (mkFloat p s zero 0 0)
  | _, _ => Ok (mkFloat p s inf 0 0)
  end.

(** [big.NewFloat(x)]: precision 53, exact; panics on a NaN. *)
Definition NewFloat (x : float64) : result Float :=
  match x with
  | S754_nan => Panic "NewFloat(NaN)"
  | S754_zero s => Ok (mkFloat 53 s zero 0 0)
  | S754_infinity s => Ok (mkFloat 53 s inf 0 0)
  | S754_finite s m e => Ok (mkFloat 53 s finite (Zpos m) e)
  end.

(** [Float.ord]. *)
Definition ord (x : Float) : Z :=
  let m := match fform x with zero => 0 | finite => 1 | inf => 2 end in
  if neg x then - m else m.

(** [Float.ucmp]: comparison of the magnitudes of two finite values. *)
Definition ucmp (x y : Float) : Z :=
  let e := Z.min (exp x) (exp y) in
  match mant x * 2 ^ (exp x - e) ?= mant y * 2 ^ (exp y - e) with
  | Lt => -1
  | Eq => 0
  | Gt => 1
  end.

(** [x.Cmp(y)]. *)
Definition Cmp (x y : Float) : Z :=
  let mx := ord x in
  let my := ord y in
  if mx <? my then -1
  else if my <? mx then 1
  else if mx =? -1 then ucmp y x
  else if mx =? 1 then ucmp x y
  else 0.

End Big.

(** Package variables of sortition.go.  [big1.Lsh(big1, 256)] stores the
    shifted value in [big1] itself and returns it, so [max] is 2^256. *)
Definition big1 : Z := 1.
Definition max : Z := Big.Lsh big1 256.
Definition fmax : Big.Float :=
  Big.SetInt (Big.mkFloat 53 false Big.zero 0 0) max.

Definition Committee : Z := 0.

(** ** difficulty.HashToBig (chain33, common/difficulty)

    The library, which follows btcd, treats a hash as little-endian:
    [[
      func HashToBig(buf []byte) *big.Int {
          blen := len(buf)
          for i := 0; i < blen/2; i++ {
              buf[i], buf[blen-1-i] = buf[blen-1-i], buf[i]
          }
          return new(big.Int).SetBytes(buf[:])
      }
    ]]
    It reverses [buf] in place and reads the reversed slice with
    [SetBytes]; this is why [sortF] and [verifySort] pass it a copy,
    [tmpHash], of the hash.  The function returns the slice as it leaves it,
    and the integer. *)
Module Difficulty.

Definition HashToBig (buf : bytes) : bytes * Z :=
  let buf' := rev buf in
  (buf', Big.SetBytes buf').

End Difficulty.

(** The threshold comparison shared by [sortF] and [verifySort]:
    [[
      tmpHash := make([]byte, len(hash)); copy(tmpHash, hash)
      y := difficulty.HashToBig(tmpHash)
      z := new(big.Float).SetInt(y)
      new(big.Float).Quo(z, fmax).Cmp(big.NewFloat(diff))
    ]] *)
Definition diffCmp (hash : bytes) (diff : float64) : result Z :=
  let tmpHash := hash in
  let '(_, y) := Difficulty.HashToBig tmpHash in
  let z := Big.SetInt Big.new_Float y in
  q <- Big.Quo Big.new_Float z fmax ;;
  d <- Big.NewFloat diff ;;
  Ok (Big.Cmp q d).

(** ** Messages (plugin/dapp/pos33/types); a pointer field is an option *)

Record VrfInput := mkVrfInput {
  Seed : bytes;
  Height : Z;   (* int64 *)
  Round : Z;    (* int32 *)
  Ty : Z        (* int32 *)
}.

Record HashProof := mkHashProof {
  Input : option VrfInput;
  VrfHash : bytes;
  VrfProof : bytes;
  Pubkey : bytes
}.

Record SortHash := mkSortHash {
  Hash : bytes;
  Index : Z;    (* int64 *)
  Num : Z       (* int32 *)
}.

Record Pos33SortMsg := mkPos33SortMsg {
  mSortHash : option SortHash;
  mProof : option HashProof
}.

(** The text hashed for one ticket, and the ticket hash. *)
Definition ticketData (vrfHash : bytes) (index num : Z) : bytes :=
  bytes_of_string (Fmt.sprintf_x_d_d vrfHash index num).

(** [sortF]: [None] is the nil result of a losing draw. *)
Definition sortF (vrfHash : bytes) (index num : Z) (diff : float64)
    (proof : option HashProof) : result (option Pos33SortMsg) :=
  let data := Fmt.sprintf_x_d_d vrfHash index num in
  let hash := hash2 (bytes_of_string data) in
  c <- diffCmp hash diff ;;
  if 0 <? c then Ok None
  else
    Ok (Some (mkPos33SortMsg
                (Some (mkSortHash hash (int64 index) (int32 num)))
                proof)).

(** ** The worker pool: [runSortition] and [doSort]

    One call of [doSort] is followed, so every job carries the result
    channel [ch] of that call and the field is left out of [sortArg]. *)

Record sortArg := mkSortArg {
  vrfHash : bytes;
  index : Z;
  num : Z;
  diff : float64;
  proof : option HashProof
}.

Definition sortF_arg (s : sortArg) : result (option Pos33SortMsg) :=
  sortF (vrfHash s) (index s) (num s) (diff s) (proof s).

(** A worker goroutine of [runSortition]: blocked on [range n.sortCh], or
    holding a job [s] whose [sortF] it runs, or blocked on [s.ch <- r]. *)
Inductive worker :=
| Waiting
| Working (s : sortArg)
| Sending (s : sortArg) (r : option Pos33SortMsg).

(** [runSortition] starts eight workers. *)
Definition runSortition : list worker := repeat Waiting 8.

(** The state of a call: the feeder goroutine's [i], the jobs buffered in
    [n.sortCh], the workers, and the collector's [j] and [msgs]. *)
Record pool := mkPool {
  feed_i : Z;
  sortCh : list sortArg;
  workers : list worker;
  coll_j : Z;
  msgs : list Pos33SortMsg
}.

Section DoSort.

(** Capacity of [n.sortCh] (made outside sortition.go); 0 is unbuffered. *)
Variable cap : nat.
Variables (vrfHash0 : bytes) (count num0 : Z) (diff0 : float64)
          (proof0 : option HashProof).

Definition job (i : Z) : sortArg := mkSortArg vrfHash0 i num0 diff0 proof0.

Definition collected (msgs : list Pos33SortMsg) (r : option Pos33SortMsg) :=
  match r with
  | Some m => msgs ++ [m]
  | None => msgs
  end.

(** The interleavings of the feeder, the workers and the collector. *)
Inductive step : pool -> pool -> Prop :=
| step_buffer i q ws j ms :
    i < count -> (List.length q < cap)%nat ->
    step (mkPool i q ws j ms) (mkPool (i + 1) (q ++ [job i]) ws j ms)
| step_handoff i ws1 ws2 j ms :
    i < count ->
    step (mkPool i [] (ws1 ++ Waiting :: ws2) j ms)
         (mkPool (i + 1) [] (ws1 ++ Working (job i) :: ws2) j ms)
| step_receive i s q ws1 ws2 j ms :
    step (mkPool i (s :: q) (ws1 ++ Waiting :: ws2) j ms)
         (mkPool i q (ws1 ++ Working s :: ws2) j ms)
| step_sortF i q ws1 s r ws2 j ms :
    sortF_arg s = Ok r ->
    step (mkPool i q (ws1 ++ Working s :: ws2) j ms)
         (mkPool i q (ws1 ++ Sending s r :: ws2) j ms)
| step_collect i q ws1 s r ws2 j ms :
    j < count ->
    step (mkPool i q (ws1 ++ Sending s r :: ws2) j ms)
         (mkPool i q (ws1 ++ Waiting :: ws2) (j + 1) (collected ms r)).

Inductive steps : pool -> pool -> Prop :=
| steps_refl p : steps p p
| steps_step p1 p2 p3 : steps p1 p2 -> step p2 p3 -> steps p1 p3.

(** A worker whose [sortF] panics takes the process down. *)
Definition crashes (p : pool) : Prop :=
  exists ws1 s ws2 w,
    workers p = ws1 ++ Working s :: ws2 /\ sortF_arg s = Panic w.

(** A call starts with the workers that [runSortition] started with the
    node, all waiting. *)
Definition doSort_start : pool := mkPool 0 [] runSortition 0 [].

(** [doSort] returns [out]: the collector's loop [for j < count] is left
    with [msgs = out]. *)
Definition doSort (out : list Pos33SortMsg) : Prop :=
  exists p, steps doSort_start p /\ count <= coll_j p /\ msgs p = out.

(** The indices [0 <= i < count]. *)
Definition indices : list Z := map Z.of_nat (seq 0 (Z.to_nat count)).

(** The non-nil results of [sortF] over a list of indices. *)
Definition wins (l : list Z) : list Pos33SortMsg :=
  flat_map (fun i => match sortF_arg (job i) with
                     | Ok (Some m) => [m]
                     | _ => []
                     end) l.

(** The schedule that serves the indices one after the other. *)
Fixpoint doSort_seq (l : list Z) : result (list Pos33SortMsg) :=
  match l with
  | [] => Ok []
  | i :: r =>
      m <- sortF_arg (job i) ;;
      ms <- doSort_seq r ;;
      Ok (match m with Some x => x :: ms | None => ms end)
  end.

(** The jobs a worker holds, and all jobs fed but not yet collected. *)
Definition held (w : worker) : list sortArg :=
  match w with
  | Waiting => []
  | Working s => [s]
  | Sending s _ => [s]
  end.

Definition pending (p : pool) : list sortArg :=
  sortCh p ++ flat_map held (workers p).

Definition sent_ok (w : worker) : Prop :=
  match w with
  | Sending s r => sortF_arg s = Ok r
  | _ => True
  end.

Definition upto (i : Z) : list Z := map Z.of_nat (seq 0 (Z.to_nat i)).

(** Invariant of a call, [done] being the indices collected so far, in the
    order of their collection: the indices fed are those collected and
    those pending, each once. *)
Record Inv (done : list Z) (p : pool) : Prop := mkInv {
  inv_i : 0 <= feed_i p <= Z.max 0 count;
  inv_j : coll_j p = Z.of_nat (List.length done);
  inv_perm : Permutation (upto (feed_i p)) (done ++ map index (pending p));
  inv_job : Forall (fun s => s = job (index s)) (pending p);
  inv_sent : Forall sent_ok (workers p);
  inv_workers : workers p <> [];
  inv_msgs : msgs p = wins done
}.

(** What is left to do in a call; every step lowers it. *)
Definition work_left (w : worker) : Z :=
  match w with
  | Waiting => 0
  | Working _ => 2
  | Sending _ _ => 1
  end.

Definition measure (p : pool) : Z :=
  4 * (Z.max 0 count - feed_i p) + 3 * Z.of_nat (List.length (sortCh p))
  + fold_right (fun w acc => work_left w + acc) 0 (workers p).

End DoSort.

(** ** The node and the libraries around it *)

(** [crypto.PrivKey], by what [Bytes()] and [PubKey().Bytes()] return. *)
Record PrivKey := mkPrivKey {
  priv_Bytes : bytes;
  priv_PubKey_Bytes : bytes
}.

(** The methods of [node] that sortition.go calls, at one state of the
    chain. *)
Record node := mkNode {
  myAddr : string;
  queryTicketCount : string -> Z -> Z;   (* int64 *)
  getPriv : option PrivKey;
  getDiff : Z -> Z -> float64;
  sortCh_cap : nat
}.

(** Errors of [verifySort]: [fmt.Errorf] with its text, and the two
    package-level values. *)
Inductive error :=
| Errorf (text : string)
| ErrVrfVerify
| errDiff.

(** Modelled from the spec: the constant [pt.Pos33SortBlocks] is declared in
    plugin/dapp/pos33/types, outside sortition.go.  The specification has one
    lookback offset, subtracted from the height by the producer and by the
    verifier alike, and gives it no value; the value here is the producer's
    literal, line 102.  The theorems name the constant; its value is used
    only where they are run on the small instance. *)
Definition Pos33SortBlocks : Z := 10.

(** Snapshot heights of the two ledger queries (int64 arithmetic). *)
Definition producer_snapshot (height : Z) : Z := int64 (height - 10).
Definition verifier_snapshot (height : Z) : Z :=
  int64 (height - Pos33SortBlocks).

(** The two errors of [verifySort] whose text is formatted. *)
Definition errSortIndex (idx count height : Z) : error :=
  Errorf ("sort index " ++ Fmt.dec idx ++ " > " ++ Fmt.dec count
          ++ " your count, height " ++ Fmt.dec height).

Definition errHeight (have height : Z) : error :=
  Errorf ("verifySort error, height NOT match: " ++ Fmt.dec have ++ "!="
          ++ Fmt.dec height).

(** The kinds of rejection that the specification tells apart.  The two
    package-level values are a kind each; a formatted error has no identity
    but its text, and is classed by the fixed beginning of its format:
    ["sort index "] for the ticket that the claimant does not hold,
    ["verifySort error, "] for a height, seed or step that does not match,
    and the rest (a nil part, a wrong ticket hash) as malformed. *)
Inductive error_kind :=
| OwnershipClaim
| ContextMismatch
| MalformedInput
| CryptographicFailure
| ThresholdFailure.

Definition kind_of (e : error) : error_kind :=
  match e with
  | Errorf text =>
      if String.prefix "sort index " text then OwnershipClaim
      else if String.prefix "verifySort error, " text then ContextMismatch
      else MalformedInput
  | ErrVrfVerify => CryptographicFailure
  | errDiff => ThresholdFailure
  end.

(** The libraries that sortition.go calls: [types.Encode] on a [VrfInput];
    [vrf.PrivateKey.Evaluate] for the key that [secp256k1.PrivKeyFromBytes]
    reads from the private bytes, giving the hash (32 bytes) and the proof;
    [secp256k1.ParsePubKey] and [vrf.PublicKey.ProofToHash], where [None]
    is an error return; [address.PubKeyToAddr(ethID, pub)].  [Evaluate]
    stands for one evaluation: the library draws a nonce for each proof, so
    that nothing here compares the proofs of two calls. *)
Class Chain33 := {
  Encode : VrfInput -> bytes;
  Evaluate : bytes -> bytes -> bytes * bytes;
  PublicKey : Type;
  ParsePubKey : bytes -> option PublicKey;
  ProofToHash : PublicKey -> bytes -> bytes -> option bytes;
  PubKeyToAddr : bytes -> string
}.

Section Pos33.

Context {lib : Chain33}.

Definition calcuVrfHash (input : VrfInput) (priv : PrivKey) : bytes * bytes :=
  let inp := Encode input in
  Evaluate (priv_Bytes priv) inp.

(** [committeeSort] returns [out]; a nil slice is [[]].  The result is a
    relation because [doSort] fixes no order.  The call of [plog.Debug] is
    left out; its argument cuts the address text to 16 characters, which
    are there in the 42 characters of an address. *)
Definition committeeSort (n : node) (seed : bytes) (height round ty : Z)
    (out : list Pos33SortMsg) : Prop :=
  let count := queryTicketCount n (myAddr n) (producer_snapshot height) in
  match getPriv n with
  | None => out = []
  | Some priv =>
      let diff := getDiff n height round in
      let input := mkVrfInput seed height (int32 round) (int32 ty) in
      let '(vrfHash, vrfProof) := calcuVrfHash input priv in
      let proof := mkHashProof (Some input) vrfHash vrfProof
                               (priv_PubKey_Bytes priv) in
      doSort (sortCh_cap n) vrfHash (int count) 0 diff (Some proof) out
  end.

(** [committeeSort] under the schedule that serves the indices in order. *)
Definition committeeSort_seq (n : node) (seed : bytes) (height round ty : Z)
    : result (list Pos33SortMsg) :=
  let count := queryTicketCount n (myAddr n) (producer_snapshot height) in
  match getPriv n with
  | None => Ok []
  | Some priv =>
      let diff := getDiff n height round in
      let input := mkVrfInput seed height (int32 round) (int32 ty) in
      let '(vrfHash, vrfProof) := calcuVrfHash input priv in
      let proof := mkHashProof (Some input) vrfHash vrfProof
                               (priv_PubKey_Bytes priv) in
      doSort_seq vrfHash 0 diff (Some proof) (indices (int count))
  end.

Definition vrfVerify (pub input proof hash : bytes) : option error :=
  match ParsePubKey pub with
  | None => Some ErrVrfVerify
  | Some vrfPub =>
      match ProofToHash vrfPub input proof with
      | None => Some ErrVrfVerify
      | Some vrfHash =>
          if bytes_eqb vrfHash hash then None else Some ErrVrfVerify
      end
  end.

(** The parts of a message that has none of [m], [m.Proof], [m.SortHash],
    [m.Proof.Input] nil. *)
Definition parts (m : option Pos33SortMsg)
  : option (SortHash * HashProof * VrfInput) :=
  match m with
  | Some (mkPos33SortMsg (Some sh) (Some pf)) =>
      match Input pf with
      | Some inp => Some (sh, pf, inp)
      | None => None
      end
  | _ => None
  end.

(** The checks of [verifySort] past the height test; [Ok None] is the nil
    error.  The calls of [plog] are left out, as in [committeeSort]. *)
Definition verifyChecks (n : node) (height ty : Z) (seed : bytes)
    (m : option Pos33SortMsg) : result (option error) :=
  match parts m with
  | None => Ok (Some (Errorf "verifySort error: sort msg is nil"))
  | Some (sh, pf, inp) =>
      let addr := PubKeyToAddr (Pubkey pf) in
      let count := queryTicketCount n addr (verifier_snapshot height) in
      if count <=? Index sh then
        Ok (Some (errSortIndex (Index sh) count height))
      else if negb (Height inp =? height) then
        Ok (Some (errHeight (Height inp) height))
      else if negb (bytes_eqb (Seed inp) seed) then
        Ok (Some (Errorf "verifySort error, seed NOT match"))
      else if negb (Ty inp =? int32 ty) then
        Ok (Some (Errorf "verifySort error, step NOT match"))
      else
        let round := Round inp in
        let input := mkVrfInput seed height round (int32 ty) in
        let inb := Encode input in
        match vrfVerify (Pubkey pf) inb (VrfProof pf) (VrfHash pf) with
        | Some err => Ok (Some err)
        | None =>
            let data := Fmt.sprintf_x_d_d (VrfHash pf) (Index sh) (Num sh) in
            let hash := hash2 (bytes_of_string data) in
            if negb (bytes_eqb hash (Hash sh)) then
              Ok (Some (Errorf "sort hash error"))
            else
              let diff := getDiff n height (int round) in
              c <- diffCmp hash diff ;;
              if 0 <? c then Ok (Some errDiff) else Ok None
        end
  end.

Definition verifySort (n : node) (height ty : Z) (seed : bytes)
    (m : option Pos33SortMsg) : result (option error) :=
  if height <=? Pos33SortBlocks then Ok None
  else verifyChecks n height ty seed m.

(** The conditions of the checks before the threshold test. *)
Definition checks_before (n : node) (height ty : Z) (seed : bytes)
    (sh : SortHash) (pf : HashProof) (inp : VrfInput) : Prop :=
  Index sh < queryTicketCount n (PubKeyToAddr (Pubkey pf))
                              (verifier_snapshot height) /\
  Height inp = height /\
  Seed inp = seed /\
  Ty inp = int32 ty /\
  vrfVerify (Pubkey pf)
            (Encode (mkVrfInput seed height (Round inp) (int32 ty)))
            (VrfProof pf) (VrfHash pf) = None /\
  Hash sh = hash2 (ticketData (VrfHash pf) (Index sh) (Num sh)).

End Pos33.

(** The last check of [verifySort] on its own: the threshold test on the
    recomputed hash. *)
Definition diffVerdict (hash : bytes) (diff : float64) : result (option error) :=
  c <- diffCmp hash diff ;;
  if 0 <? c then Ok (Some errDiff) else Ok None.

(** ** The arithmetic the specification speaks of *)

(** A byte string read as an unsigned integer, most significant byte first
    and least significant byte first. *)
Fixpoint big_endian (h : bytes) : Z :=
  match h with
  | [] => 0
  | b :: r => byte_val b * 256 ^ Z.of_nat (List.length r) + big_endian r
  end.

Fixpoint little_endian (h : bytes) : Z :=
  match h with
  | [] => 0
  | b :: r => byte_val b + 256 * little_endian r
  end.

Definition two : Q := inject_Z 2.

(** The exact value of a finite [float64]. *)
Definition float64_Q (s : bool) (m : positive) (e : Z) : Q :=
  inject_Z (if s then Zneg m else Zpos m) * two ^ e.

(** [y / 2^256 <= diff] over the rationals extended by the infinities; no
    number is below a NaN. *)
Definition ratio_le (y : Z) (diff : float64) : Prop :=
  match diff with
  | S754_nan => False
  | S754_infinity s => s = false
  | S754_zero _ => (inject_Z y / inject_Z (2 ^ 256) <= 0)%Q
  | S754_finite s m e =>
      (inject_Z y / inject_Z (2 ^ 256) <= float64_Q s m e)%Q
  end.

(** The threshold test of [sortF] and [verifySort] succeeds: the comparison
    is evaluated and is not [> 0]. *)
Definition threshold_ok (hash : bytes) (diff : float64) : Prop :=
  exists c, diffCmp hash diff = Ok c /\ c <= 0.

(** ** The text the specification speaks of *)

Module Text.

(** Two lowercase hexadecimal digits for a byte. *)
Definition hex_byte (b : byte) : string :=
  let n := Byte.to_N b in
  (HexadecimalString.NilZero.string_of_uint (N.to_hex_uint (n / 16))
   ++ HexadecimalString.NilZero.string_of_uint (N.to_hex_uint (n mod 16)))%string.

(** The lowercase hexadecimal text of a byte string. *)
Definition hex_text (v : bytes) : string :=
  fold_right (fun b s => (hex_byte b ++ s)%string) EmptyString v.

(** The decimal text of an integer. *)
Definition decimal (z : Z) : string :=
  DecimalString.NilZero.string_of_int (Z.to_int z).

(** Hexadecimal text, ['+'], the index in decimal, ['+'], the number in
    decimal. *)
Definition ticket_text (v : bytes) (index num : Z) : string :=
  (hex_text v ++ "+" ++ decimal index ++ "+" ++ decimal num)%string.

(** The digits of [u], least significant first, and its decimal numeral,
    most significant digit first in front of [acc]. *)
Definition cons_digit (k : Z) (d : Decimal.uint) : Decimal.uint :=
  match k with
  | 0 => Decimal.D0 d
  | 1 => Decimal.D1 d
  | 2 => Decimal.D2 d
  | 3 => Decimal.D3 d
  | 4 => Decimal.D4 d
  | 5 => Decimal.D5 d
  | 6 => Decimal.D6 d
  | 7 => Decimal.D7 d
  | 8 => Decimal.D8 d
  | _ => Decimal.D9 d
  end.

Fixpoint numeral (fuel : nat) (u : Z) (acc : Decimal.uint) : Decimal.uint :=
  match fuel with
  | O => acc
  | S f =>
      if 10 <=? u then numeral f (u / 10) (cons_digit (u - u / 10 * 10) acc)
      else cons_digit u acc
  end.

(** The same digits, least significant first. *)
Fixpoint digits_lu (fuel : nat) (u : Z) : Decimal.uint :=
  match fuel with
  | O => Decimal.Nil
  | S f =>
      if 10 <=? u then cons_digit (u - u / 10 * 10) (digits_lu f (u / 10))
      else cons_digit u Decimal.Nil
  end.

End Text.

(** ** Messages and nodes changed in one place *)

Definition with_sortHash (m : Pos33SortMsg) (sh : SortHash) : Pos33SortMsg :=
  mkPos33SortMsg (Some sh) (mProof m).

Definition with_index (m : Pos33SortMsg) (idx : Z) : Pos33SortMsg :=
  mkPos33SortMsg
    (option_map (fun sh => mkSortHash (Hash sh) idx (Num sh)) (mSortHash m))
    (mProof m).

Definition with_input_height (m : Pos33SortMsg) (h : Z) : Pos33SortMsg :=
  mkPos33SortMsg (mSortHash m)
    (option_map
       (fun pf =>
          mkHashProof
            (option_map (fun i => mkVrfInput (Seed i) h (Round i) (Ty i))
                        (Input pf))
            (VrfHash pf) (VrfProof pf) (Pubkey pf))
       (mProof m)).

Definition with_vrfProof (m : Pos33SortMsg) (p : bytes) : Pos33SortMsg :=
  mkPos33SortMsg (mSortHash m)
    (option_map
       (fun pf => mkHashProof (Input pf) (VrfHash pf) p (Pubkey pf))
       (mProof m)).

Definition with_getDiff (n : node) (f : Z -> Z -> float64) : node :=
  mkNode (myAddr n) (queryTicketCount n) (getPriv n) f (sortCh_cap n).

(** The byte string [p] with the byte at position [k] replaced by [b]. *)
Definition set_byte (p : bytes) (k : nat) (b : byte) : bytes :=
  firstn k p ++ b :: skipn (S k) p.

(** The VRF of the node's key is complete: the proof that [Evaluate] gives
    for an input makes [ProofToHash], under the public key of the same
    key pair, return the hash that [Evaluate] gives. *)
Definition vrf_complete {lib : Chain33} (priv : PrivKey) : Prop :=
  forall inb : bytes,
    exists pub,
      ParsePubKey (priv_PubKey_Bytes priv) = Some pub /\
      ProofToHash pub inb (snd (Evaluate (priv_Bytes priv) inb)) =
      Some (fst (Evaluate (priv_Bytes priv) inb)).

(** What the specification requires of the VRF verifier: a proof that
    verifies to a hash no longer verifies to that hash once one of its
    bytes is changed. *)
Definition vrf_rejects_changed {lib : Chain33} : Prop :=
  forall (pub : PublicKey) (inb p h : bytes) (k : nat) (b : byte),
    ProofToHash pub inb p = Some h ->
    (k < List.length p)%nat ->
    nth k p x00 <> b ->
    ProofToHash pub inb (set_byte p k b) <> Some h.

(** ** A small instance of the libraries and of a node

    A key pair whose public bytes are the private bytes, a VRF whose hash is
    the SHA-256 of key and input and whose proof is the key, addresses of 42
    characters, and a node that holds three tickets at difficulty 1. *)

Definition demoEncode (i : VrfInput) : bytes :=
  Seed i ++ bytes_of_string
    (Fmt.dec (Height i) ++ "," ++ Fmt.dec (Round i) ++ "," ++ Fmt.dec (Ty i)).

Definition demoProofToHash (pub inb pr : bytes) : option bytes :=
  if bytes_eqb pr pub then Some (Sha256 (pub ++ inb)) else None.

Definition demoLib : Chain33 := {|
  Encode := demoEncode;
  Evaluate := fun sk inb => (Sha256 (sk ++ inb), sk);
  PublicKey := bytes;
  ParsePubKey := fun pk => match pk with [] => None | _ => Some pk end;
  ProofToHash := demoProofToHash;
  PubKeyToAddr := fun pk => ("0x" ++ Fmt.hex (firstn 20 (Sha256 pk)))%string
|}.

Definition demoKey : PrivKey := mkPrivKey [x07] [x07].

(** The [float64] values 1 and 2^-9. *)
Definition one64 : float64 := S754_finite false 4503599627370496 (-52).
Definition small64 : float64 := S754_finite false 4503599627370496 (-61).

Definition demoAddr : string :=
  Eval vm_compute in PubKeyToAddr (Chain33 := demoLib) [x07].

Definition demoNode : node := {|
  myAddr := demoAddr;
  queryTicketCount := fun _ _ => 3;
  getPriv := Some demoKey;
  getDiff := fun _ _ => one64;
  sortCh_cap := 0
|}.

(** The same node without a key, and with an oracle that answers NaN. *)
Definition demoNodeNoKey : node := {|
  myAddr := demoAddr;
  queryTicketCount := fun _ _ => 3;
  getPriv := None;
  getDiff := fun _ _ => S754_nan;
  sortCh_cap := 0
|}.

(** A verifier: another node, with no key, whose ledger knows the three
    tickets of [demoAddr] and no other, and whose oracle answers 1. *)
Definition demoVerifier : node := {|
  myAddr := "0x0000000000000000000000000000000000000001";
  queryTicketCount := fun addr _ => if String.eqb addr demoAddr then 3 else 0;
  getPriv := None;
  getDiff := fun _ _ => one64;
  sortCh_cap := 2
|}.

(** Nodes with the key of [demoNode] whose oracle answers NaN, the first
    with no ticket and the second with three. *)
Definition demoNodeNoTicket : node := {|
  myAddr := demoAddr;
  queryTicketCount := fun _ _ => 0;
  getPriv := Some demoKey;
  getDiff := fun _ _ => S754_nan;
  sortCh_cap := 0
|}.

Definition demoNodeNaN : node := {|
  myAddr := demoAddr;
  queryTicketCount := fun _ _ => 3;
  getPriv := Some demoKey;
  getDiff := fun _ _ => S754_nan;
  sortCh_cap := 0
|}.

Definition demoSeed : bytes := [x73; x65; x65; x64].

(** The message of ticket [i] of [demoNode] at height 100, round 0. *)
Definition demoInput : VrfInput := mkVrfInput demoSeed 100 0 0.

Definition demoProof : HashProof :=
  let '(h, p) := calcuVrfHash (lib := demoLib) demoInput demoKey in
  mkHashProof (Some demoInput) h p (priv_PubKey_Bytes demoKey).

Definition demoMsg (i num : Z) : Pos33SortMsg :=
  mkPos33SortMsg
    (Some (mkSortHash (hash2 (ticketData (VrfHash demoProof) i num)) i num))
    (Some demoProof).

(** A hash whose first byte is 1 and whose other 31 bytes are 0. *)
Definition hash_01 : bytes := x01 :: repeat x00 31.

(** ** More of what the code shows: orders, runs, message fields *)

(** The value of a finite or zero [float64], and the order of [float64]
    values that are not NaN. *)
Definition f64_Q (d : float64) : Q :=
  match d with
  | S754_finite s m e => float64_Q s m e
  | _ => 0%Q
  end.

Definition f64_le (d1 d2 : float64) : Prop :=
  match d1, d2 with
  | S754_nan, _ | _, S754_nan => False
  | S754_infinity true, _ => True
  | _, S754_infinity false => True
  | S754_infinity false, _ => False
  | _, S754_infinity true => False
  | _, _ => (f64_Q d1 <= f64_Q d2)%Q
  end.

(** A negative number or minus infinity. *)
Definition f64_negative (d : float64) : Prop :=
  match d with
  | S754_finite true _ _ | S754_infinity true => True
  | _ => False
  end.

(** The message of [sortF] for a winning ticket. *)
Definition sortMsg (vrfHash : bytes) (index num : Z)
    (proof : option HashProof) : Pos33SortMsg :=
  mkPos33SortMsg
    (Some (mkSortHash (hash2 (ticketData vrfHash index num))
                      (int64 index) (int32 num)))
    proof.

(** [m.SortHash.Index], -1 standing for a nil [SortHash]. *)
Definition msg_index (m : Pos33SortMsg) : Z :=
  match mSortHash m with
  | Some sh => Index sh
  | None => -1
  end.

Section DoSortRuns.

Variable cap : nat.
Variables (vrfHash0 : bytes) (count num0 : Z) (diff0 : float64)
          (proof0 : option HashProof).

(** Every index fed so far is still pending or has been evaluated by
    [sortF] without a panic. *)
Definition evaluated (p : pool) : Prop :=
  forall k, 0 <= k < feed_i p ->
    In k (map index (pending p)) \/
    exists r, sortF vrfHash0 k num0 diff0 proof0 = Ok r.

(** Runs of a given number of steps. *)
Inductive steps_n : nat -> pool -> pool -> Prop :=
| steps_n_refl p : steps_n O p p
| steps_n_step k p1 p2 p3 :
    steps_n k p1 p2 ->
    step cap vrfHash0 count num0 diff0 proof0 p2 p3 ->
    steps_n (S k) p1 p3.

End DoSortRuns.

(** The proof that [committeeSort] puts in its messages, for the key
    [priv]. *)
Definition producer_proof {lib : Chain33} (seed : bytes)
    (height round ty : Z) (priv : PrivKey) : HashProof :=
  let input := mkVrfInput seed height (int32 round) (int32 ty) in
  let '(vrfHash, vrfProof) := calcuVrfHash input priv in
  mkHashProof (Some input) vrfHash vrfProof (priv_PubKey_Bytes priv).

(** The ticket count that [committeeSort] passes to [doSort]. *)
Definition producer_count (n : node) (height : Z) : Z :=
  int (queryTicketCount n (myAddr n) (producer_snapshot height)).

(** The string holds no character [c]. *)
Fixpoint free_of (c : ascii) (s : string) : Prop :=
  match s with
  | EmptyString => True
  | String a r => a <> c /\ free_of c r
  end.

(** Reading hexadecimal text back: the value of a digit, and the bytes of
    a text of two digits per byte. *)
Definition nibble_of (c : ascii) : Z :=
  let n := Z.of_N (N_of_ascii c) in
  if n <? 58 then n - 48 else n - 87.

Fixpoint unhex (s : string) : bytes :=
  match s with
  | String c1 (String c2 r) =>
      byte_of (16 * nibble_of c1 + nibble_of c2) :: unhex r
  | _ => []
  end.

(** * Properties *)

(** ** SHA-256 on the test vectors of FIPS 180-4 *)

Lemma Sha256_abc :
  Fmt.hex (Sha256 (bytes_of_string "abc")) =
  "ba7816bf8f01cfea414140de5dae2223b00361a396177a9cb410ff61f20015ad"%string.
Proof. vm_compute. reflexivity. Qed.

Lemma Sha256_two_blocks :
  Fmt.hex (Sha256 (bytes_of_string
             "abcdbcdecdefdefgefghfghighijhijkijkljklmklmnlmnomnopnopq")) =
  "248d6a61d20638b8e5c026930c3e6039a33ce45964ff2167f6ecedd419db06c1"%string.
Proof. vm_compute. reflexivity. Qed.

Lemma Sha256_empty :
  Fmt.hex (Sha256 []) =
  "e3b0c44298fc1c149afbf4c8996fb92427ae41e4649b934ca495991b7852b855"%string.
Proof. vm_compute. reflexivity. Qed.

(** ** Bytes and integers *)

Lemma byte_val_range b : 0 <= byte_val b < 256.
Proof.
  unfold byte_val. pose proof (Byte.to_N_bounded b). lia.
Qed.

Lemma SetBytes_rev h : Big.SetBytes (rev h) = little_endian h.
Proof.
  unfold Big.SetBytes.
  induction h as [|b r IH]; [reflexivity|].
  cbn [rev little_endian]. rewrite fold_left_app, IH.
  cbn [fold_left]. lia.
Qed.

Lemma little_endian_nonneg h : 0 <= little_endian h.
Proof.
  induction h as [|b r IH]; cbn [little_endian]; [lia|].
  pose proof (byte_val_range b). lia.
Qed.

Lemma BitLen_bounds x : 0 < x -> 2 ^ (Big.BitLen x - 1) <= x < 2 ^ Big.BitLen x.
Proof.
  intros Hx. unfold Big.BitLen.
  destruct (Z.eqb_spec x 0); [lia|].
  rewrite Z.abs_eq by lia.
  pose proof (Z.log2_spec x Hx) as [H1 H2].
  replace (Z.log2 x + 1 - 1) with (Z.log2 x) by lia.
  replace (Z.log2 x + 1) with (Z.succ (Z.log2 x)) by lia. lia.
Qed.

Lemma BitLen_pos x : 0 < x -> 0 < Big.BitLen x.
Proof.
  intros Hx. unfold Big.BitLen.
  destruct (Z.eqb_spec x 0); [lia|].
  pose proof (Z.log2_nonneg (Z.abs x)). lia.
Qed.

Lemma BitLen_mul_pow2 x k :
  0 < x -> 0 <= k -> Big.BitLen (x * 2 ^ k) = Big.BitLen x + k.
Proof.
  intros Hx Hk. unfold Big.BitLen.
  assert (0 < x * 2 ^ k) by (apply Z.mul_pos_pos; [lia | apply Z.pow_pos_nonneg; lia]).
  destruct (Z.eqb_spec x 0); [lia|].
  destruct (Z.eqb_spec (x * 2 ^ k) 0); [lia|].
  rewrite !Z.abs_eq by lia.
  rewrite Z.log2_mul_pow2 by lia. lia.
Qed.

(** Rounding leaves a mantissa that fits the precision as it is. *)
Lemma round_fits p m e s : Big.BitLen m <= p -> Big.round p m e s = (m, e).
Proof.
  intros H. unfold Big.round.
  destruct (Z.leb_spec (Big.BitLen m) p); [reflexivity | lia].
Qed.

(** Rounding drops low bits that are all zero without changing the value. *)
Lemma round_exact p x r e s :
  0 < x -> 0 < r -> Big.BitLen x = p ->
  Big.round p (x * 2 ^ r) e s = (x, e + r).
Proof.
  intros Hx Hr Hp. unfold Big.round.
  rewrite BitLen_mul_pow2 by lia.
  destruct (Z.leb_spec (Big.BitLen x + r) p); [lia|].
  replace (Big.BitLen x + r - p) with r by lia.
  rewrite Z.shiftr_div_pow2 by lia.
  rewrite Z.div_mul by (apply Z.pow_nonzero; lia).
  replace (Z.testbit (x * 2 ^ r) (r - 1)) with false; [reflexivity|].
  symmetry. rewrite Z.mul_pow2_bits_low by lia. reflexivity.
Qed.

Lemma fmax_eq : fmax = Big.mkFloat 53 false Big.finite (2 ^ 52) 204.
Proof. vm_compute. reflexivity. Qed.

Lemma SetInt_new_pos y :
  0 < y ->
  Big.SetInt Big.new_Float y =
  Big.mkFloat (Z.max (Big.BitLen y) 64) false Big.finite y 0.
Proof.
  intros Hy. unfold Big.SetInt. cbn [Big.prec Big.new_Float].
  change (0 =? 0) with true. cbv iota.
  destruct (Z.eqb_spec y 0); [lia|].
  rewrite Z.abs_eq by lia.
  rewrite round_fits by lia.
  destruct (Z.ltb_spec y 0); [lia | reflexivity].
Qed.

Lemma SetInt_new_zero :
  Big.SetInt Big.new_Float 0 = Big.mkFloat 64 false Big.zero 0 0.
Proof. reflexivity. Qed.

(** The quotient by [fmax] is exact: only the exponent moves. *)
Lemma Quo_fmax_exact y :
  0 < y ->
  let bl := Big.BitLen y in
  let p := Z.max bl 64 in
  Big.Quo Big.new_Float (Big.SetInt Big.new_Float y) fmax =
  Ok (Big.mkFloat p false Big.finite (y * 2 ^ (p - bl)) (bl - p - 256)).
Proof.
  intros Hy bl p.
  rewrite SetInt_new_pos, fmax_eq by assumption.
  pose proof (BitLen_pos y Hy) as Hbl. fold bl in Hbl. fold bl. fold p.
  unfold Big.Quo.
  cbn [Big.prec Big.neg Big.fform Big.new_Float xorb].
  change (0 =? 0) with true. cbv iota.
  replace (Z.max p 53) with p by lia.
  unfold Big.uquo. cbn [Big.mant Big.exp].
  fold bl.
  replace (Big.BitLen (2 ^ 52)) with 53 by reflexivity.
  replace (Z.max 0 (p + 1 + 53 - bl)) with (p - bl + 54) by lia.
  rewrite Z.shiftl_mul_pow2 by lia.
  replace (y * 2 ^ (p - bl + 54)) with ((y * 2 ^ (p - bl)) * 2 ^ 2 * 2 ^ 52).
  2:{ rewrite <- !Z.mul_assoc, <- !Z.pow_add_r by lia.
      f_equal; f_equal; lia. }
  rewrite Z.div_mul by lia.
  rewrite Z.mod_mul by lia.
  change (negb (0 =? 0)) with false.
  assert (Hx : 0 < y * 2 ^ (p - bl))
    by (apply Z.mul_pos_pos; [lia | apply Z.pow_pos_nonneg; lia]).
  rewrite round_exact; try lia.
  - do 2 f_equal. lia.
  - rewrite BitLen_mul_pow2 by lia. fold bl. lia.
Qed.

(** ** Dyadic rationals *)

Lemma two_neq0 : ~ (two == 0)%Q.
Proof. unfold two. intros H. discriminate H. Qed.

Lemma two_pow_pos e : (0 < two ^ e)%Q.
Proof. apply Qpower_0_lt. reflexivity. Qed.

(** [a * 2^e] with the exponent split over a lower one. *)
Lemma dyadic_shift a e e0 :
  e0 <= e ->
  (inject_Z a * two ^ e == inject_Z (a * 2 ^ (e - e0)) * two ^ e0)%Q.
Proof.
  intros H. rewrite inject_Z_mult.
  rewrite Zpower_Qpower by lia. fold two.
  rewrite <- Qmult_assoc, <- Qpower_plus by apply two_neq0.
  replace (e - e0 + e0) with e by lia. reflexivity.
Qed.

Lemma dyadic_le a b e1 e2 :
  (inject_Z a * two ^ e1 <= inject_Z b * two ^ e2)%Q <->
  a * 2 ^ (e1 - Z.min e1 e2) <= b * 2 ^ (e2 - Z.min e1 e2).
Proof.
  rewrite (dyadic_shift a e1 (Z.min e1 e2)) by lia.
  rewrite (dyadic_shift b e2 (Z.min e1 e2)) by lia.
  rewrite Qmult_le_r by apply two_pow_pos.
  rewrite <- Zle_Qle. reflexivity.
Qed.

Lemma ratio_dyadic y :
  (inject_Z y / inject_Z (2 ^ 256) == inject_Z y * two ^ (-256))%Q.
Proof.
  unfold Qdiv. change (-256) with (Z.opp 256).
  rewrite Qpower_opp, Zpower_Qpower by lia. reflexivity.
Qed.

Lemma ratio_sign y : 0 <= y -> (0 <= inject_Z y / inject_Z (2 ^ 256))%Q.
Proof.
  intros H. rewrite ratio_dyadic.
  apply Qmult_le_0_compat.
  - rewrite Zle_Qle in H. exact H.
  - apply Qlt_le_weak, two_pow_pos.
Qed.

Lemma ratio_pos y : 0 < y -> (0 < inject_Z y / inject_Z (2 ^ 256))%Q.
Proof.
  intros H. rewrite ratio_dyadic.
  apply Qmult_lt_0_compat.
  - rewrite Zlt_Qlt in H. exact H.
  - apply two_pow_pos.
Qed.

Lemma float64_Q_pos m e : (0 < float64_Q false m e)%Q.
Proof.
  unfold float64_Q. apply Qmult_lt_0_compat; [reflexivity | apply two_pow_pos].
Qed.

Lemma float64_Q_neg m e : (float64_Q true m e < 0)%Q.
Proof.
  unfold float64_Q.
  setoid_replace (inject_Z (Z.neg m) * two ^ e)%Q
    with (- (inject_Z (Z.pos m) * two ^ e))%Q.
  - rewrite <- (Qopp_involutive 0). apply Qopp_lt_compat.
    change (- - 0)%Q with 0%Q.
    apply Qmult_lt_0_compat; [reflexivity | apply two_pow_pos].
  - change (Z.neg m) with (- Z.pos m). rewrite inject_Z_opp. ring.
Qed.

Lemma ucmp_le x y :
  Big.ucmp x y <= 0 <->
  (inject_Z (Big.mant x) * two ^ Big.exp x
   <= inject_Z (Big.mant y) * two ^ Big.exp y)%Q.
Proof.
  rewrite dyadic_le. unfold Big.ucmp.
  destruct (Z.compare_spec
              (Big.mant x * 2 ^ (Big.exp x - Z.min (Big.exp x) (Big.exp y)))
              (Big.mant y * 2 ^ (Big.exp y - Z.min (Big.exp x) (Big.exp y))));
    lia.
Qed.

(** The comparison of [sortF] and [verifySort] decides
    [y / 2^256 <= diff] exactly, [y] being the hash read least significant
    byte first; it is evaluated for every [diff] but a NaN. *)
Lemma diffCmp_spec h d :
  d <> S754_nan ->
  exists c, diffCmp h d = Ok c /\ (c <= 0 <-> ratio_le (little_endian h) d).
Proof.
  intros Hd. unfold diffCmp, Difficulty.HashToBig.
  rewrite SetBytes_rev.
  pose proof (little_endian_nonneg h) as Hy.
  set (y := little_endian h) in *.
  destruct (Z.eq_dec y 0) as [Hz | Hnz].
  - rewrite Hz, SetInt_new_zero, fmax_eq.
    cbn [bind Big.Quo Big.fform Big.prec Big.new_Float Big.neg xorb].
    pose proof (ratio_sign 0 (Z.le_refl 0)) as H0.
    assert (H00 : (inject_Z 0 / inject_Z (2 ^ 256) <= 0)%Q) by (now vm_compute).
    destruct d as [s | s | | s m e]; cbn [Big.NewFloat bind].
    + exists 0. split; [destruct s; reflexivity|].
      cbn [ratio_le]. split; [intros _; exact H00 | lia].
    + destruct s; [exists 1 | exists (-1)]; (split; [reflexivity|]);
        cbn [ratio_le]; split; (lia || congruence || reflexivity).
    + congruence.
    + destruct s; [exists 1 | exists (-1)]; (split; [reflexivity|]);
        cbn [ratio_le]; split; try lia.
      * intros H. exfalso.
        apply (Qlt_irrefl 0).
        eapply Qle_lt_trans; [apply H0|].
        eapply Qle_lt_trans; [apply H | apply float64_Q_neg].
      * intros _. eapply Qle_trans; [apply H00|].
        apply Qlt_le_weak, float64_Q_pos.
  - assert (Hpos : 0 < y) by lia.
    rewrite (Quo_fmax_exact y Hpos). cbv zeta.
    set (bl := Big.BitLen y). set (p := Z.max bl 64).
    set (q := Big.mkFloat p false Big.finite (y * 2 ^ (p - bl)) (bl - p - 256)).
    pose proof (ratio_pos y Hpos) as Hr.
    destruct d as [s | s | | s m e]; cbn [Big.NewFloat bind].
    + exists 1. split; [destruct s; reflexivity|].
      cbn [ratio_le]. split; [lia|].
      intros H. exfalso. apply (Qlt_irrefl 0).
      eapply Qlt_le_trans; [apply Hr | apply H].
    + destruct s; [exists 1 | exists (-1)]; (split; [reflexivity|]);
        cbn [ratio_le]; split; (lia || congruence || reflexivity).
    + congruence.
    + destruct s.
      * exists 1. split; [reflexivity|]. cbn [ratio_le]. split; [lia|].
        intros H. exfalso. apply (Qlt_irrefl 0).
        eapply Qlt_le_trans; [apply Hr|].
        eapply Qle_trans; [apply H|]. apply Qlt_le_weak, float64_Q_neg.
      * exists (Big.ucmp q (Big.mkFloat 53 false Big.finite (Z.pos m) e)).
        split; [reflexivity|].
        rewrite ucmp_le. cbn [ratio_le Big.mant Big.exp q].
        rewrite ratio_dyadic.
        rewrite (dyadic_shift y (-256) (bl - p - 256)) by lia.
        replace (-256 - (bl - p - 256)) with (p - bl) by lia.
        unfold float64_Q. reflexivity.
Qed.

Lemma diffCmp_nan h : diffCmp h S754_nan = Panic "NewFloat(NaN)".
Proof.
  unfold diffCmp, Difficulty.HashToBig.
  rewrite SetBytes_rev.
  pose proof (little_endian_nonneg h) as Hy.
  destruct (Z.eq_dec (little_endian h) 0) as [Hz | Hnz].
  - rewrite Hz. reflexivity.
  - rewrite Quo_fmax_exact by lia. reflexivity.
Qed.

(** ** The worker pool *)

Section DoSortInv.

Variable cap : nat.
Variables (vrfHash0 : bytes) (count num0 : Z) (diff0 : float64)
          (proof0 : option HashProof).

Local Abbreviation job' := (job vrfHash0 num0 diff0 proof0).
Local Abbreviation wins' := (wins vrfHash0 num0 diff0 proof0).
Local Abbreviation step' := (step cap vrfHash0 count num0 diff0 proof0).
Local Abbreviation steps' := (steps cap vrfHash0 count num0 diff0 proof0).
Local Abbreviation Inv' := (Inv vrfHash0 count num0 diff0 proof0).

Lemma held_split ws1 w ws2 :
  flat_map held (ws1 ++ w :: ws2) =
  flat_map held ws1 ++ held w ++ flat_map held ws2.
Proof. rewrite flat_map_app. reflexivity. Qed.

Lemma upto_succ i : 0 <= i -> upto (i + 1) = upto i ++ [i].
Proof.
  intros Hi. unfold upto.
  replace (Z.to_nat (i + 1)) with (S (Z.to_nat i)) by lia.
  rewrite seq_S, map_app. cbn [map Nat.add]. f_equal. f_equal. lia.
Qed.

Lemma wins_app l1 l2 : wins' (l1 ++ l2) = wins' l1 ++ wins' l2.
Proof. unfold wins. apply flat_map_app. Qed.

Lemma Forall_split {A} (P : A -> Prop) l1 x l2 :
  Forall P (l1 ++ x :: l2) <-> Forall P l1 /\ P x /\ Forall P l2.
Proof.
  rewrite Forall_app. split.
  - intros [H1 H2]. inversion H2; subst. auto.
  - intros (H1 & H2 & H3). split; [|constructor]; assumption.
Qed.

Lemma Inv_start : Inv' [] (doSort_start).
Proof.
  constructor.
  - cbn. lia.
  - reflexivity.
  - reflexivity.
  - unfold pending, doSort_start, runSortition. cbn. constructor.
  - unfold doSort_start, runSortition. cbn [workers].
    apply Forall_forall. intros w Hw.
    apply repeat_spec in Hw. subst. exact I.
  - discriminate.
  - reflexivity.
Qed.

Lemma split_nonnil {A} (l1 : list A) x l2 : l1 ++ x :: l2 <> [].
Proof. destruct l1; discriminate. Qed.

Lemma perm_feed {A} (a d l1 l2 : list A) x :
  Permutation a (d ++ l1 ++ l2) ->
  Permutation (a ++ [x]) (d ++ l1 ++ x :: l2).
Proof.
  intros H. etransitivity; [apply Permutation_app_comm|]. cbn [app].
  rewrite app_assoc. apply Permutation_cons_app.
  rewrite <- app_assoc. exact H.
Qed.

Lemma perm_take {A} (a d l0 l1 l2 : list A) x :
  Permutation a (d ++ x :: l0 ++ l1 ++ l2) ->
  Permutation a (d ++ l0 ++ l1 ++ x :: l2).
Proof.
  intros H. etransitivity; [exact H|]. apply Permutation_app_head.
  rewrite (app_assoc l0 l1 (x :: l2)), (app_assoc l0 l1 l2).
  apply Permutation_middle.
Qed.

Lemma perm_give {A} (a d l0 l1 l2 : list A) x :
  Permutation a (d ++ l0 ++ l1 ++ x :: l2) ->
  Permutation a ((d ++ [x]) ++ l0 ++ l1 ++ l2).
Proof.
  intros H. etransitivity; [exact H|]. rewrite <- app_assoc.
  apply Permutation_app_head. cbn [app].
  rewrite (app_assoc l0 l1 (x :: l2)), (app_assoc l0 l1 l2).
  symmetry. apply Permutation_middle.
Qed.

Lemma Inv_step done p p' :
  Inv' done p -> step' p p' -> exists done', Inv' done' p'.
Proof.
  intros [Hi Hj Hperm Hjob Hsent Hws Hmsgs] Hstep.
  destruct Hstep; unfold pending in *;
    cbn [feed_i sortCh workers coll_j msgs] in *;
    rewrite ?held_split in *; cbn [held app] in *;
    rewrite ?map_app in *; cbn [map] in *.
  - (* the feeder puts job' i in the buffer *)
    exists done. constructor; unfold pending;
      cbn [feed_i sortCh workers coll_j msgs]; try assumption.
    + lia.
    + rewrite upto_succ by lia.
      rewrite !map_app, <- app_assoc. cbn [map app index job].
      apply perm_feed. exact Hperm.
    + apply Forall_app in Hjob as [H1 H2].
      rewrite <- app_assoc. cbn [app].
      apply Forall_split. repeat split; assumption || reflexivity.
  - (* the feeder hands job' i to a waiting worker *)
    apply Forall_split in Hsent as (Hs1 & _ & Hs2).
    exists done. constructor; unfold pending;
      cbn [feed_i sortCh workers coll_j msgs]; try assumption.
    + lia.
    + rewrite upto_succ by lia. rewrite held_split.
      cbn [held app]. rewrite map_app. cbn [map app index job].
      apply perm_feed. exact Hperm.
    + rewrite held_split. cbn [held app].
      apply Forall_app in Hjob as [H1 H2].
      apply Forall_split. repeat split; assumption || reflexivity.
    + apply Forall_split. repeat split; assumption.
    + apply split_nonnil.
  - (* a waiting worker takes a job' from the buffer *)
    apply Forall_split in Hsent as (Hs1 & _ & Hs2).
    exists done. constructor; unfold pending;
      cbn [feed_i sortCh workers coll_j msgs]; try assumption.
    + rewrite held_split. cbn [held app]. rewrite !map_app. cbn [map].
      rewrite ?map_app in Hperm. apply perm_take. exact Hperm.
    + rewrite held_split. cbn [held app].
      inversion Hjob as [|? ? Hs Hrest]; subst.
      apply Forall_app in Hrest as [H1 H2]. apply Forall_app in H2 as [H2 H3].
      apply Forall_app; split; [assumption|].
      apply Forall_split. repeat split; assumption.
    + apply Forall_split. repeat split; assumption.
    + apply split_nonnil.
  - (* a worker runs sortF *)
    apply Forall_split in Hsent as (Hs1 & _ & Hs2).
    exists done. constructor; unfold pending;
      cbn [feed_i sortCh workers coll_j msgs]; try assumption.
    + rewrite held_split. cbn [held app]. rewrite !map_app. exact Hperm.
    + rewrite held_split. exact Hjob.
    + apply Forall_split. repeat split; assumption.
    + apply split_nonnil.
  - (* the collector receives a result *)
    apply Forall_split in Hsent as (Hs1 & Hsr & Hs2). cbn [sent_ok] in Hsr.
    apply Forall_app in Hjob as [Hq Hw].
    apply Forall_split in Hw as (Hw1 & Hjs & Hw2).
    exists (done ++ [index s]). constructor; unfold pending;
      cbn [feed_i sortCh workers coll_j msgs].
    + assumption.
    + rewrite length_app. cbn [List.length]. lia.
    + rewrite held_split. cbn [held app]. rewrite !map_app.
      apply perm_give. exact Hperm.
    + rewrite held_split. cbn [held app].
      apply Forall_app; split; [assumption|].
      apply Forall_app; split; assumption.
    + apply Forall_split. repeat split; assumption.
    + apply split_nonnil.
    + rewrite wins_app, <- Hmsgs. unfold collected.
      unfold wins. cbn [flat_map]. rewrite <- Hjs, Hsr.
      destruct r; [reflexivity | rewrite !app_nil_r; reflexivity].
Qed.

Lemma Inv_steps p :
  steps' doSort_start p -> exists done, Inv' done p.
Proof.
  intros H. remember doSort_start as p0 eqn:Hp0.
  induction H as [|p1 p2 p3 _ IH Hstep]; subst.
  - exists []. apply Inv_start.
  - destruct (IH eq_refl) as [done IH']. eapply Inv_step; eassumption.
Qed.

(** What [doSort] returns is a rearrangement of the non-nil results of
    [sortF] over the indices below [count]. *)
Lemma doSort_sound out :
  doSort cap vrfHash0 count num0 diff0 proof0 out ->
  Permutation out (wins' (indices count)).
Proof.
  intros (p & Hsteps & Hfin & Hout).
  destruct (Inv_steps p Hsteps) as [done [Hi Hj Hperm _ _ _ Hmsgs]].
  subst out. rewrite Hmsgs.
  unfold wins. apply Permutation_flat_map.
  change (indices count) with (upto count). symmetry.
  pose proof (Permutation_length Hperm) as Hlen.
  rewrite length_app in Hlen. unfold upto in Hlen at 1.
  rewrite length_map, length_seq in Hlen.
  assert (Hic : feed_i p = Z.max 0 count /\ map index (pending p) = []).
  { split; [lia|]. apply length_zero_iff_nil. lia. }
  destruct Hic as [Hic Hnil]. rewrite Hnil, app_nil_r in Hperm.
  replace (upto count) with (upto (feed_i p)); [exact Hperm|].
  unfold upto. rewrite Hic. f_equal. f_equal. lia.
Qed.

(** With a worker whose [sortF] does not panic, serving index [i] takes a
    hand-off, the evaluation and the collection. *)
Lemma serve_one i ms r :
  0 <= i < count ->
  sortF_arg (job' i) = Ok r ->
  steps' (mkPool i [] runSortition i ms)
        (mkPool (i + 1) [] runSortition (i + 1) (collected ms r)).
Proof.
  intros Hi Hr. unfold runSortition.
  change (repeat Waiting 8) with ([] ++ Waiting :: repeat Waiting 7).
  eapply steps_step; [eapply steps_step; [eapply steps_step; [apply steps_refl|]|]|].
  - apply step_handoff. lia.
  - apply step_sortF. exact Hr.
  - apply step_collect. lia.
Qed.

Lemma steps_trans p1 p2 p3 : steps' p1 p2 -> steps' p2 p3 -> steps' p1 p3.
Proof.
  intros H12 H23. induction H23 as [|p2 p3 p4 _ IH Hs]; [assumption|].
  eapply steps_step; [apply IH; assumption | exact Hs].
Qed.

Lemma doSort_seq_wins l out :
  doSort_seq vrfHash0 num0 diff0 proof0 l = Ok out ->
  out = wins' l /\ Forall (fun i => exists r, sortF_arg (job' i) = Ok r) l.
Proof.
  revert out. induction l as [|i l IH]; intros out H; cbn [doSort_seq] in H.
  - inversion H. split; [reflexivity | constructor].
  - destruct (sortF_arg (job' i)) as [r|w] eqn:Hr; cbn [bind] in H; [|discriminate].
    destruct (doSort_seq vrfHash0 num0 diff0 proof0 l) as [ms|w] eqn:Hl;
      cbn [bind] in H; [|discriminate].
    destruct (IH ms eq_refl) as [Hms Hall]. inversion H; subst.
    split.
    + unfold wins. cbn [flat_map]. rewrite Hr.
      destruct r; reflexivity.
    + constructor; [eexists; exact Hr | exact Hall].
Qed.

Lemma serve_upto (n : nat) :
  Z.of_nat n <= Z.max 0 count ->
  Forall (fun i => exists r, sortF_arg (job' i) = Ok r) (upto (Z.of_nat n)) ->
  steps' doSort_start
        (mkPool (Z.of_nat n) [] runSortition (Z.of_nat n)
                (wins' (upto (Z.of_nat n)))).
Proof.
  induction n as [|n IH]; intros Hn Hall.
  - apply steps_refl.
  - replace (Z.of_nat (S n)) with (Z.of_nat n + 1) in * by lia.
    rewrite upto_succ in * by lia.
    apply Forall_app in Hall as [Hall Hlast].
    inversion Hlast as [|? ? [r Hr] _]; subst.
    eapply steps_trans; [apply IH; [lia | exact Hall]|].
    rewrite wins_app.
    replace (wins' [Z.of_nat n]) with (match r with Some m => [m] | None => [] end).
    2:{ unfold wins. cbn [flat_map]. rewrite Hr, app_nil_r. reflexivity. }
    replace (wins' (upto (Z.of_nat n)) ++ match r with Some m => [m] | None => [] end)
      with (collected (wins' (upto (Z.of_nat n))) r)
      by (destruct r; cbn [collected]; rewrite ?app_nil_r; reflexivity).
    apply serve_one; [lia | exact Hr].
Qed.

(** When no evaluation panics, [doSort] does return: serving the indices in
    order is one of its runs. *)
Lemma doSort_seq_run out :
  doSort_seq vrfHash0 num0 diff0 proof0 (indices count) = Ok out ->
  doSort cap vrfHash0 count num0 diff0 proof0 out.
Proof.
  intros H. apply doSort_seq_wins in H as [Hout Hall]. subst out.
  exists (mkPool (Z.max 0 count) [] runSortition (Z.max 0 count)
                 (wins' (indices count))).
  cbn [coll_j msgs]. split; [|split; [lia | reflexivity]].
  assert (Hidx : indices count = upto (Z.of_nat (Z.to_nat count))).
  { unfold indices, upto. rewrite Nat2Z.id. reflexivity. }
  rewrite Hidx in *.
  replace (Z.max 0 count) with (Z.of_nat (Z.to_nat count)) by lia.
  apply serve_upto; [lia | exact Hall].
Qed.

Lemma workers_cases (ws : list worker) :
  (exists ws1 s r ws2, ws = ws1 ++ Sending s r :: ws2) \/
  (exists ws1 s ws2, ws = ws1 ++ Working s :: ws2) \/
  Forall (fun w => w = Waiting) ws.
Proof.
  induction ws as [|w ws IH].
  - right. right. constructor.
  - destruct w as [|s|s r].
    + destruct IH as [(ws1 & s & r & ws2 & E) | [(ws1 & s & ws2 & E) | H]]; subst.
      * left. exists (Waiting :: ws1), s, r, ws2. reflexivity.
      * right. left. exists (Waiting :: ws1), s, ws2. reflexivity.
      * right. right. constructor; [reflexivity | assumption].
    + right. left. exists [], s, ws. reflexivity.
    + left. exists [], s, r, ws. reflexivity.
Qed.

Lemma held_waiting ws :
  Forall (fun w => w = Waiting) ws -> flat_map held ws = [].
Proof.
  induction 1 as [|w ws Hw _ IH]; [reflexivity|].
  subst. cbn [flat_map held app]. exact IH.
Qed.

(** No deadlock: while results are missing, some goroutine can move, or a
    worker panics. *)
Lemma doSort_progress done p :
  Inv' done p -> coll_j p < count ->
  (exists p', step' p p') \/
  crashes p.
Proof.
  intros [Hi Hj Hperm Hjob Hsent Hws Hmsgs] Hlt.
  destruct p as [i q ws j ms]. unfold pending in *.
  cbn [feed_i sortCh workers coll_j msgs] in *.
  destruct (workers_cases ws)
    as [(ws1 & s & r & ws2 & E) | [(ws1 & s & ws2 & E) | Hall]]; subst.
  - left. eexists. apply step_collect. exact Hlt.
  - destruct (sortF_arg s) as [r|w] eqn:Hr.
    + left. eexists. apply step_sortF. exact Hr.
    + right. exists ws1, s, ws2, w. split; [reflexivity | exact Hr].
  - left. destruct ws as [|w ws]; [congruence|].
    inversion Hall as [|? ? Hw Hrest]; subst.
    change (Waiting :: ws) with ([] ++ Waiting :: ws).
    destruct q as [|s q].
    + eexists. apply step_handoff.
      rewrite held_waiting in Hperm by exact Hall.
      cbn [app map] in Hperm. rewrite app_nil_r in Hperm.
      apply Permutation_length in Hperm. unfold upto in Hperm.
      rewrite length_map, length_seq in Hperm. lia.
    + eexists. apply step_receive.
Qed.

Lemma work_left_split ws1 w ws2 :
  fold_right (fun w acc => work_left w + acc) 0 (ws1 ++ w :: ws2) =
  fold_right (fun w acc => work_left w + acc) 0 ws1 + work_left w +
  fold_right (fun w acc => work_left w + acc) 0 ws2.
Proof.
  induction ws1 as [|x ws1 IH]; cbn [app fold_right]; [lia|].
  rewrite IH. lia.
Qed.

Lemma work_left_nonneg ws :
  0 <= fold_right (fun w acc => work_left w + acc) 0 ws.
Proof.
  induction ws as [|w ws IH]; cbn [fold_right]; [lia|].
  destruct w; cbn [work_left]; lia.
Qed.

(** Every step' lowers the measure, which is never negative: a call makes
    finitely many steps'. *)
Lemma doSort_measure done p p' :
  Inv' done p -> step' p p' ->
  0 <= measure count p' < measure count p.
Proof.
  intros HI Hstep.
  destruct (Inv_step done p p' HI Hstep) as [done' [Hi' _ _ _ _ _ _]].
  destruct Hstep; unfold measure in *;
    cbn [feed_i sortCh workers coll_j msgs] in *;
    rewrite ?work_left_split, ?length_app; cbn [work_left List.length];
    repeat match goal with
           | |- context [fold_right _ 0 ?l] =>
               lazymatch goal with
               | H : 0 <= fold_right _ 0 l |- _ => fail
               | _ => pose proof (work_left_nonneg l)
               end
           end; lia.
Qed.

End DoSortInv.

(** ** Equality of slices, conversions of integers *)

Lemma bytes_eqb_eq a b : bytes_eqb a b = true <-> a = b.
Proof.
  unfold bytes_eqb. destruct (list_eq_dec Byte.byte_eq_dec a b); split;
    congruence.
Qed.

Lemma bytes_eqb_refl a : bytes_eqb a a = true.
Proof. apply bytes_eqb_eq. reflexivity. Qed.

Lemma wrap_range w x :
  0 < w -> - 2 ^ (w - 1) <= wrap w x < 2 ^ (w - 1).
Proof.
  intros Hw. unfold wrap.
  assert (H2 : 2 ^ w = 2 * 2 ^ (w - 1)).
  { replace w with (1 + (w - 1)) at 1 by lia.
    rewrite Z.pow_add_r by lia. reflexivity. }
  assert (Hp : 0 < 2 ^ (w - 1)) by (apply Z.pow_pos_nonneg; lia).
  pose proof (Z.mod_pos_bound (x + 2 ^ (w - 1)) (2 ^ w)). lia.
Qed.

Lemma wrap_small w x :
  0 < w -> - 2 ^ (w - 1) <= x < 2 ^ (w - 1) -> wrap w x = x.
Proof.
  intros Hw Hx. unfold wrap.
  assert (H2 : 2 ^ w = 2 * 2 ^ (w - 1)).
  { replace w with (1 + (w - 1)) at 1 by lia.
    rewrite Z.pow_add_r by lia. reflexivity. }
  rewrite Z.mod_small by lia. lia.
Qed.

Lemma int64_small x : in_int64 x -> int64 x = x.
Proof. intros H. apply wrap_small; [lia | exact H]. Qed.

Lemma int_range x : in_int64 (int x).
Proof. apply (wrap_range 64 x). lia. Qed.

Lemma In_upto i n : In i (upto n) <-> 0 <= i < n.
Proof.
  unfold upto. rewrite in_map_iff. split.
  - intros (k & Hk & Hin). apply in_seq in Hin. lia.
  - intros H. exists (Z.to_nat i). split; [lia|]. apply in_seq. lia.
Qed.

(** ** [sortF] *)

Lemma threshold_ok_nan h : ~ threshold_ok h S754_nan.
Proof.
  intros (c & Hc & _). rewrite diffCmp_nan in Hc. discriminate.
Qed.

Lemma threshold_ok_iff h d :
  threshold_ok h d <-> ratio_le (little_endian h) d.
Proof.
  assert (Hcase : d = S754_nan \/ d <> S754_nan)
    by (destruct d; (left; reflexivity) || (right; discriminate)).
  destruct Hcase as [Hd | Hd].
  - subst. split; [intros H; destruct (threshold_ok_nan h H) | intros []].
  - destruct (diffCmp_spec h d Hd) as (c & Hc & Hle). split.
    + intros (c' & Hc' & Hle'). rewrite Hc in Hc'. inversion Hc'; subst.
      apply Hle. exact Hle'.
    + intros H. exists c. split; [exact Hc | apply Hle; exact H].
Qed.

Lemma sortF_inv v i num d pf m :
  sortF v i num d pf = Ok (Some m) ->
  m = mkPos33SortMsg
        (Some (mkSortHash (hash2 (ticketData v i num)) (int64 i) (int32 num)))
        pf /\
  threshold_ok (hash2 (ticketData v i num)) d.
Proof.
  unfold sortF, ticketData. intros H.
  destruct (diffCmp (hash2 (bytes_of_string (Fmt.sprintf_x_d_d v i num))) d)
    as [c|w] eqn:Hc; cbn [bind] in H; [|discriminate].
  destruct (Z.ltb_spec 0 c); [discriminate|].
  inversion H. split; [reflexivity|].
  exists c. split; [exact Hc | lia].
Qed.

Lemma sortF_total v i num d pf :
  d <> S754_nan -> exists r, sortF v i num d pf = Ok r.
Proof.
  intros Hd. unfold sortF.
  destruct (diffCmp_spec (hash2 (bytes_of_string (Fmt.sprintf_x_d_d v i num))) d Hd)
    as (c & Hc & _).
  rewrite Hc. cbn [bind]. destruct (0 <? c); eexists; reflexivity.
Qed.

Lemma In_wins v nm d pf l m :
  In m (wins v nm d pf l) ->
  exists i, In i l /\ sortF v i nm d pf = Ok (Some m).
Proof.
  unfold wins. rewrite in_flat_map. intros (i & Hi & Hm).
  exists i. split; [exact Hi|].
  unfold sortF_arg, job in Hm. cbn [vrfHash index num diff proof] in Hm.
  destruct (sortF v i nm d pf) as [[m'|]|w]; cbn in Hm;
    try contradiction.
  destruct Hm as [Hm|[]]. subst. reflexivity.
Qed.

(** ** [verifySort] *)

Section Verify.

Context {lib : Chain33}.

Lemma vrfVerify_nil pub inb pr hash :
  vrfVerify pub inb pr hash = None <->
  exists vrfPub,
    ParsePubKey pub = Some vrfPub /\ ProofToHash vrfPub inb pr = Some hash.
Proof.
  unfold vrfVerify. split.
  - destruct (ParsePubKey pub) as [vp|] eqn:E1; [|discriminate].
    destruct (ProofToHash vp inb pr) as [vh|] eqn:E2; [|discriminate].
    destruct (bytes_eqb vh hash) eqn:E; [|discriminate].
    intros _. apply bytes_eqb_eq in E. subst. exists vp.
    split; [reflexivity | exact E2].
  - intros (vp & H1 & H2). rewrite H1, H2, bytes_eqb_refl. reflexivity.
Qed.

Lemma vrfVerify_err pub inb pr hash e :
  vrfVerify pub inb pr hash = Some e -> e = ErrVrfVerify.
Proof.
  unfold vrfVerify.
  destruct (ParsePubKey pub) as [vp|]; [|congruence].
  destruct (ProofToHash vp inb pr) as [vh|]; [|congruence].
  destruct (bytes_eqb vh hash); congruence.
Qed.

(** When the checks before it pass, the result is that of the threshold
    test. *)
Lemma verifyChecks_tail n height ty seed m sh pf inp :
  parts m = Some (sh, pf, inp) ->
  checks_before n height ty seed sh pf inp ->
  verifyChecks n height ty seed m =
  diffVerdict (Hash sh) (getDiff n height (int (Round inp))).
Proof.
  intros Hparts (Hidx & Hh & Hseed & Hty & Hvrf & Hhash).
  unfold verifyChecks. rewrite Hparts.
  destruct (Z.leb_spec
              (queryTicketCount n (PubKeyToAddr (Pubkey pf))
                                (verifier_snapshot height)) (Index sh));
    [lia|].
  rewrite Hh, Z.eqb_refl. cbn [negb].
  rewrite Hseed, bytes_eqb_refl. cbn [negb].
  rewrite Hty, Z.eqb_refl. cbn [negb].
  rewrite Hvrf.
  fold (ticketData (VrfHash pf) (Index sh) (Num sh)).
  rewrite <- Hhash, bytes_eqb_refl. cbn [negb].
  reflexivity.
Qed.

(** A message that the checks accept has passed each of them. *)
Lemma verifyChecks_accepted n height ty seed m :
  verifyChecks n height ty seed m = Ok None ->
  exists sh pf inp,
    parts m = Some (sh, pf, inp) /\
    checks_before n height ty seed sh pf inp /\
    threshold_ok (Hash sh) (getDiff n height (int (Round inp))).
Proof.
  unfold verifyChecks.
  destruct (parts m) as [[[sh pf] inp]|] eqn:Hparts; [|discriminate].
  destruct (Z.leb_spec
              (queryTicketCount n (PubKeyToAddr (Pubkey pf))
                                (verifier_snapshot height)) (Index sh));
    [discriminate|].
  destruct (Z.eqb_spec (Height inp) height); cbn [negb]; [|discriminate].
  destruct (bytes_eqb (Seed inp) seed) eqn:Hseed; cbn [negb]; [|discriminate].
  destruct (Z.eqb_spec (Ty inp) (int32 ty)); cbn [negb]; [|discriminate].
  destruct (vrfVerify (Pubkey pf)
              (Encode (mkVrfInput seed height (Round inp) (int32 ty)))
              (VrfProof pf) (VrfHash pf)) as [err|] eqn:Hvrf; [discriminate|].
  fold (ticketData (VrfHash pf) (Index sh) (Num sh)).
  destruct (bytes_eqb (hash2 (ticketData (VrfHash pf) (Index sh) (Num sh)))
                      (Hash sh)) eqn:Hhash; cbn [negb]; [|discriminate].
  apply bytes_eqb_eq in Hseed, Hhash.
  intros Hd. exists sh, pf, inp. split; [reflexivity|].
  split; [repeat split; auto|].
  rewrite Hhash in Hd.
  destruct (diffCmp (Hash sh) (getDiff n height (int (Round inp))))
    as [c|w] eqn:Hc; cbn [bind] in Hd; [|discriminate].
  destruct (Z.ltb_spec 0 c); [discriminate|].
  exists c. split; [exact Hc | lia].
Qed.

Lemma diffVerdict_ok hash d :
  threshold_ok hash d -> diffVerdict hash d = Ok None.
Proof.
  intros (c & Hc & Hle). unfold diffVerdict. rewrite Hc. cbn [bind].
  destruct (Z.ltb_spec 0 c); [lia | reflexivity].
Qed.

Lemma diffVerdict_errDiff hash d :
  d <> S754_nan -> ~ ratio_le (little_endian hash) d ->
  diffVerdict hash d = Ok (Some errDiff).
Proof.
  intros Hd Hn. destruct (diffCmp_spec hash d Hd) as (c & Hc & Hle).
  unfold diffVerdict. rewrite Hc. cbn [bind].
  destruct (Z.ltb_spec 0 c); [reflexivity|].
  exfalso. apply Hn, Hle. assumption.
Qed.

Lemma verifySort_above n height ty seed m :
  Pos33SortBlocks < height ->
  verifySort n height ty seed m = verifyChecks n height ty seed m.
Proof.
  intros H. unfold verifySort.
  destruct (Z.leb_spec height Pos33SortBlocks); [lia | reflexivity].
Qed.

Lemma verifySort_bootstrap n height ty seed m :
  height <= Pos33SortBlocks -> verifySort n height ty seed m = Ok None.
Proof.
  intros H. unfold verifySort.
  destruct (Z.leb_spec height Pos33SortBlocks); [reflexivity | lia].
Qed.

End Verify.

(** ** The text of [fmt.Sprintf] is the text of the specification *)

Lemma digit_cases k :
  0 <= k <= 9 ->
  k = 0 \/ k = 1 \/ k = 2 \/ k = 3 \/ k = 4 \/ k = 5 \/ k = 6 \/ k = 7 \/
  k = 8 \/ k = 9.
Proof. lia. Qed.

Ltac each_digit k H :=
  destruct (digit_cases k H)
    as [?|[?|[?|[?|[?|[?|[?|[?|[?|?]]]]]]]]]; subst k.

Lemma revapp_cons_digit k d d' :
  0 <= k <= 9 ->
  Decimal.revapp (Text.cons_digit k d) d' =
  Decimal.revapp d (Text.cons_digit k d').
Proof. intros H. each_digit k H; reflexivity. Qed.

Lemma of_lu_cons_digit k d :
  0 <= k <= 9 ->
  DecimalPos.Unsigned.of_lu (Text.cons_digit k d) =
  (Z.to_N k + 10 * DecimalPos.Unsigned.of_lu d)%N.
Proof. intros H. each_digit k H; reflexivity. Qed.

Lemma string_cons_digit k d :
  0 <= k <= 9 ->
  DecimalString.NilEmpty.string_of_uint (Text.cons_digit k d) =
  String (Fmt.digit k) (DecimalString.NilEmpty.string_of_uint d).
Proof. intros H. each_digit k H; reflexivity. Qed.

Lemma last_digit u : 0 <= u -> 0 <= u - u / 10 * 10 <= 9.
Proof. intros H. pose proof (Z.mod_pos_bound u 10). pose proof (Z.div_mod u 10). lia. Qed.

Lemma numeral_revapp fuel u acc :
  0 <= u ->
  Text.numeral fuel u acc = Decimal.revapp (Text.digits_lu fuel u) acc.
Proof.
  revert u acc. induction fuel as [|f IH]; intros u acc Hu; [reflexivity|].
  cbn [Text.numeral Text.digits_lu].
  destruct (Z.leb_spec 10 u).
  - rewrite IH by (apply Z.div_pos; lia).
    rewrite revapp_cons_digit by (apply last_digit; lia). reflexivity.
  - rewrite revapp_cons_digit by lia. reflexivity.
Qed.

Lemma of_lu_digits fuel u :
  0 <= u < 2 ^ Z.of_nat fuel ->
  DecimalPos.Unsigned.of_lu (Text.digits_lu fuel u) = Z.to_N u.
Proof.
  revert u. induction fuel as [|f IH]; intros u Hu.
  - cbn in Hu. replace u with 0 by lia. reflexivity.
  - cbn [Text.digits_lu].
    rewrite Nat2Z.inj_succ, Z.pow_succ_r in Hu by lia.
    destruct (Z.leb_spec 10 u).
    + rewrite of_lu_cons_digit by (apply last_digit; lia).
      rewrite IH.
      * pose proof (Z.div_mod u 10). pose proof (Z.mod_pos_bound u 10).
        assert (0 <= u / 10) by (apply Z.div_pos; lia). lia.
      * split; [apply Z.div_pos; lia|].
        apply Z.div_lt_upper_bound; lia.
    + rewrite of_lu_cons_digit by lia. cbn [DecimalPos.Unsigned.of_lu]. lia.
Qed.

(** The numeral of a positive number starts with a digit that is not 0. *)
Lemma numeral_head fuel u acc :
  0 < u < 2 ^ Z.of_nat fuel ->
  exists k d, 1 <= k <= 9 /\ Text.numeral fuel u acc = Text.cons_digit k d.
Proof.
  revert u acc. induction fuel as [|f IH]; intros u acc Hu.
  - cbn in Hu. lia.
  - cbn [Text.numeral].
    rewrite Nat2Z.inj_succ, Z.pow_succ_r in Hu by lia.
    destruct (Z.leb_spec 10 u).
    + apply IH. split.
      * apply Z.div_str_pos. lia.
      * apply Z.div_lt_upper_bound; lia.
    + exists u, acc. split; [lia | reflexivity].
Qed.

Lemma unorm_cons_digit k d :
  1 <= k <= 9 ->
  Decimal.unorm (Text.cons_digit k d) = Text.cons_digit k d.
Proof.
  intros H. assert (H' : 0 <= k <= 9) by lia.
  each_digit k H'; try lia; reflexivity.
Qed.

Lemma log2_fuel u : 0 < u -> u < 2 ^ Z.of_nat (S (Z.to_nat (Z.log2 u))).
Proof.
  intros Hu. pose proof (Z.log2_nonneg u).
  rewrite Nat2Z.inj_succ, Z2Nat.id by lia.
  apply Z.log2_spec. exact Hu.
Qed.

(** The numeral built by division is the numeral of the library. *)
Lemma numeral_to_uint p :
  Text.numeral (S (Z.to_nat (Z.log2 (Z.pos p)))) (Z.pos p) Decimal.Nil =
  Pos.to_uint p.
Proof.
  pose proof (log2_fuel (Z.pos p) (Pos2Z.is_pos p)) as Hf.
  set (fuel := S (Z.to_nat (Z.log2 (Z.pos p)))) in *.
  set (d := Text.numeral fuel (Z.pos p) Decimal.Nil).
  assert (Hval : Pos.of_uint d = N.pos p).
  { unfold d. rewrite numeral_revapp by lia.
    fold (Decimal.rev (Text.digits_lu fuel (Z.pos p))).
    rewrite DecimalPos.Unsigned.of_lu_rev, of_lu_digits by lia.
    reflexivity. }
  assert (Hnorm : Decimal.unorm d = d).
  { destruct (numeral_head fuel (Z.pos p) Decimal.Nil) as (k & r & Hk & Hd);
      [lia|].
    unfold d. rewrite Hd. apply unorm_cons_digit. exact Hk. }
  pose proof (DecimalPos.Unsigned.to_of d) as Hto.
  rewrite Hval, Hnorm in Hto. symmetry. exact Hto.
Qed.

Lemma fmt_digits_numeral fuel u acc :
  0 <= u ->
  Fmt.fmt_digits fuel u (DecimalString.NilEmpty.string_of_uint acc) =
  DecimalString.NilEmpty.string_of_uint (Text.numeral fuel u acc).
Proof.
  revert u acc. induction fuel as [|f IH]; intros u acc Hu; [reflexivity|].
  cbn [Fmt.fmt_digits Text.numeral].
  destruct (Z.leb_spec 10 u).
  - rewrite <- IH by (apply Z.div_pos; lia).
    rewrite string_cons_digit by (apply last_digit; lia). reflexivity.
  - rewrite string_cons_digit by lia. reflexivity.
Qed.

Lemma string_of_to_uint p :
  DecimalString.NilZero.string_of_uint (Pos.to_uint p) =
  DecimalString.NilEmpty.string_of_uint (Pos.to_uint p).
Proof.
  pose proof (DecimalPos.Unsigned.to_uint_nonnil p) as H.
  destruct (Pos.to_uint p); [congruence | reflexivity ..].
Qed.

(** [%d] writes the decimal text of the integer. *)
Lemma dec_decimal z : Fmt.dec z = Text.decimal z.
Proof.
  unfold Fmt.dec, Text.decimal. destruct z as [|p|p].
  - reflexivity.
  - cbn [Z.abs Z.ltb Z.compare Z.to_int DecimalString.NilZero.string_of_int].
    rewrite string_of_to_uint, <- numeral_to_uint.
    apply (fmt_digits_numeral _ (Z.pos p) Decimal.Nil). lia.
  - cbn [Z.abs Z.ltb Z.compare Z.to_int DecimalString.NilZero.string_of_int].
    rewrite string_of_to_uint, <- numeral_to_uint. f_equal.
    apply (fmt_digits_numeral _ (Z.pos p) Decimal.Nil). lia.
Qed.

Lemma hex_byte_text b :
  String (Fmt.digit (Z.shiftr (byte_val b) 4))
         (String (Fmt.digit (Z.land (byte_val b) 15)) EmptyString) =
  Text.hex_byte b.
Proof. destruct b; vm_compute; reflexivity. Qed.

(** [%x] writes the lowercase hexadecimal text of the slice. *)
Lemma hex_hex_text v : Fmt.hex v = Text.hex_text v.
Proof.
  induction v as [|b v IH]; [reflexivity|].
  cbn [Fmt.hex Text.hex_text fold_right]. fold (Text.hex_text v).
  rewrite <- IH, <- hex_byte_text. reflexivity.
Qed.

Lemma sprintf_ticket_text v index num :
  Fmt.sprintf_x_d_d v index num = Text.ticket_text v index num.
Proof.
  unfold Fmt.sprintf_x_d_d, Text.ticket_text.
  rewrite hex_hex_text, !dec_decimal. reflexivity.
Qed.

(** ** The claims of the specification *)

(** What [committeeSort] returns: nothing without a key, and with a key
    messages of [sortF] for indices below the ticket count. *)
Lemma committeeSort_inv {lib : Chain33} n seed height round ty out m :
  committeeSort n seed height round ty out -> In m out ->
  exists priv i,
    getPriv n = Some priv /\
    0 <= i < int (queryTicketCount n (myAddr n) (producer_snapshot height)) /\
    let input := mkVrfInput seed height (int32 round) (int32 ty) in
    let vh := fst (calcuVrfHash input priv) in
    let vp := snd (calcuVrfHash input priv) in
    sortF vh i 0 (getDiff n height round)
          (Some (mkHashProof (Some input) vh vp (priv_PubKey_Bytes priv)))
    = Ok (Some m).
Proof.
  unfold committeeSort. cbv zeta. intros Hcs Hin.
  destruct (getPriv n) as [priv|]; [|subst; destruct Hin].
  destruct (calcuVrfHash (mkVrfInput seed height (int32 round) (int32 ty)) priv)
    as [vh vp] eqn:Hvrf.
  apply doSort_sound in Hcs.
  apply (Permutation_in _ Hcs) in Hin.
  apply In_wins in Hin as (i & Hi & Hs).
  apply In_upto in Hi.
  exists priv, i. split; [reflexivity|]. split; [exact Hi|].
  rewrite Hvrf. cbn [fst snd]. exact Hs.
Qed.

(** C1.  Round trip: a message that [committeeSort] returns on the
    producer's node [np] is accepted by [verifySort] on the verifier's node
    [nv], a node with its own address, key, ledger and oracle, under the
    same height, type and seed, when the verifier's ledger reports more
    tickets than the message's index for the address of its public key at
    the verifier's snapshot height and the verifier's oracle answers as the
    producer's oracle answered; the VRF library is taken to be complete for
    the producer's key. *)
Theorem committeeSort_verifySort_roundtrip
    {lib : Chain33} (np nv : node) seed height round ty out m :
  (forall priv, getPriv np = Some priv -> vrf_complete priv) ->
  committeeSort np seed height round ty out ->
  In m out ->
  (forall sh pf, mSortHash m = Some sh -> mProof m = Some pf ->
     Index sh + 1 <= queryTicketCount nv (PubKeyToAddr (Pubkey pf))
                                      (verifier_snapshot height)) ->
  getDiff nv height (int (int32 round)) = getDiff np height round ->
  verifySort nv height ty seed (Some m) = Ok None.
Proof.
  intros Hvrf Hcs Hin Hcount Hdiff.
  destruct (Z.le_gt_cases height Pos33SortBlocks) as [Hb | Hb].
  { apply verifySort_bootstrap. exact Hb. }
  rewrite verifySort_above by lia.
  destruct (committeeSort_inv np seed height round ty out m Hcs Hin)
    as (priv & i & Hpriv & Hi & Hs).
  cbv zeta in Hs.
  set (input := mkVrfInput seed height (int32 round) (int32 ty)) in *.
  apply sortF_inv in Hs as [Hm Hok].
  pose proof (int_range (queryTicketCount np (myAddr np) (producer_snapshot height)))
    as Hr. unfold in_int64 in Hr.
  rewrite int64_small in Hm by (unfold in_int64; lia).
  change (int32 0) with 0 in Hm.
  set (vh := fst (calcuVrfHash input priv)) in *.
  set (vp := snd (calcuVrfHash input priv)) in *.
  set (pf := mkHashProof (Some input) vh vp (priv_PubKey_Bytes priv)) in *.
  set (sh := mkSortHash (hash2 (ticketData vh i 0)) i 0) in *.
  rewrite (verifyChecks_tail nv height ty seed (Some m) sh pf input).
  - cbn [Hash sh Round input]. rewrite Hdiff.
    apply diffVerdict_ok. exact Hok.
  - subst m. reflexivity.
  - unfold checks_before. cbn [Index Height Seed Ty Round Pubkey VrfProof
                               VrfHash Hash Num sh pf input].
    repeat split.
    + specialize (Hcount sh pf). subst m. cbn [mSortHash mProof] in Hcount.
      specialize (Hcount eq_refl eq_refl). cbn [Index sh Pubkey pf] in Hcount.
      lia.
    + apply vrfVerify_nil.
      destruct (Hvrf priv Hpriv (Encode input)) as (pub & Hpub & Hpth).
      exists pub. split; [exact Hpub | exact Hpth].
Qed.

Lemma doSort_seq_total v nm d pf l :
  d <> S754_nan -> doSort_seq v nm d pf l = Ok (wins v nm d pf l).
Proof.
  intros Hd. induction l as [|i l IH]; [reflexivity|].
  cbn [doSort_seq]. unfold wins. cbn [flat_map]. fold (wins v nm d pf l).
  unfold sortF_arg, job. cbn [vrfHash index num diff proof].
  destruct (sortF_total v i nm d pf Hd) as [r Hr]. rewrite Hr, IH.
  cbn [bind]. destruct r; reflexivity.
Qed.

(** What [committeeSort] gives when the indices are served in order is one
    of its results. *)
Lemma committeeSort_seq_run {lib : Chain33} n seed height round ty out :
  committeeSort_seq n seed height round ty = Ok out ->
  committeeSort n seed height round ty out.
Proof.
  unfold committeeSort_seq, committeeSort.
  destruct (getPriv n) as [priv|]; [|intros H; inversion H; reflexivity].
  destruct (calcuVrfHash (mkVrfInput seed height (int32 round) (int32 ty)) priv)
    as [vh vp].
  apply doSort_seq_run.
Qed.

Lemma demo_vrf_complete :
  forall priv, getPriv demoNode = Some priv -> vrf_complete (lib := demoLib) priv.
Proof.
  intros priv H. injection H as <-. intros inb.
  exists [x07]. split; reflexivity.
Qed.

Lemma demo_committeeSort :
  committeeSort (lib := demoLib) demoNode demoSeed 100 0 0
                [demoMsg 0 0; demoMsg 1 0; demoMsg 2 0].
Proof.
  apply committeeSort_seq_run. vm_compute. reflexivity.
Qed.

Lemma roundtrip_demo :
  myAddr demoVerifier <> myAddr demoNode /\
  getPriv demoVerifier = None /\
  verifySort (lib := demoLib) demoVerifier 100 0 demoSeed (Some (demoMsg 2 0))
  = Ok None.
Proof.
  split; [vm_compute; discriminate|]. split; [reflexivity|].
  apply (committeeSort_verifySort_roundtrip (lib := demoLib)
           demoNode demoVerifier demoSeed 100 0 0
           [demoMsg 0 0; demoMsg 1 0; demoMsg 2 0] (demoMsg 2 0)).
  - exact demo_vrf_complete.
  - exact demo_committeeSort.
  - right. right. left. reflexivity.
  - intros sh pf Hsh Hpf. injection Hsh as <-. injection Hpf as <-.
    vm_compute. discriminate.
  - reflexivity.
Defined.

(** C2, as stated, fails: for the hash 01 00 ... 00 and the difficulty 2^-9
    the test of [sortF] and [verifySort] succeeds, while the hash read as a
    big-endian integer gives the ratio 2^-8, which is above 2^-9. *)
Lemma threshold_big_endian_counterexample :
  List.length hash_01 = 32%nat /\
  threshold_ok hash_01 small64 /\
  ~ ratio_le (big_endian hash_01) small64.
Proof.
  split; [reflexivity|]. split.
  - exists (-1). split; [vm_compute; reflexivity | lia].
  - unfold ratio_le, small64. intros H.
    apply Qle_not_lt in H. apply H. vm_compute. reflexivity.
Qed.

(** C2, amended.  The threshold test of [sortF] and of [verifySort] succeeds
    if and only if the exact rational [y / 2^256] is at most [diff], where
    [y] is the ticket hash read as an unsigned little-endian integer (what
    [difficulty.HashToBig] returns); the [big.Float] quotient and comparison
    lose no precision.  For a NaN [diff] the test panics and does not
    succeed. *)
Theorem threshold_exact_little_endian (h : bytes) (d : float64) :
  (threshold_ok h d <-> ratio_le (little_endian h) d) /\
  (forall v i num pf,
      (exists m, sortF v i num d pf = Ok (Some m)) <->
      ratio_le (little_endian (hash2 (ticketData v i num))) d) /\
  (diffVerdict h d = Ok None <-> ratio_le (little_endian h) d).
Proof.
  split; [apply threshold_ok_iff|]. split.
  - intros v i num pf. rewrite <- threshold_ok_iff. split.
    + intros [m Hm]. apply sortF_inv in Hm. apply Hm.
    + intros (c & Hc & Hle). unfold sortF.
      fold (ticketData v i num). rewrite Hc. cbn [bind].
      destruct (Z.ltb_spec 0 c); [lia|]. eexists. reflexivity.
  - rewrite <- threshold_ok_iff. split.
    + unfold diffVerdict. intros H.
      destruct (diffCmp h d) as [c|w] eqn:Hc; cbn [bind] in H; [|discriminate].
      destruct (Z.ltb_spec 0 c); [discriminate|].
      exists c. split; [exact Hc | lia].
    + apply diffVerdict_ok.
Qed.

(** C3.  The ticket hash is SHA-256 applied twice to the bytes of the text
    made of the lowercase hexadecimal text of the VRF hash, ['+'], the index
    in decimal, ['+'], the number in decimal.  [sortF] computes that value
    and decides on it: it returns the message that carries it when its
    ratio is within the difficulty, and nil when it is not.  [verifySort]
    recomputes the same value from the fields of the message: past the
    earlier checks, a message whose [SortHash.Hash] is that value gets the
    verdict of the threshold test on it, and any other [SortHash.Hash] is
    answered with the error of the hash; so an accepted message carries
    that value. *)
Theorem ticket_hash_construction :
  (forall v index num,
      hash2 (ticketData v index num) =
      Sha256 (Sha256 (bytes_of_string (Text.ticket_text v index num)))) /\
  (forall v index num d pf,
      let h := Sha256 (Sha256 (bytes_of_string
                                 (Text.ticket_text v index num))) in
      (ratio_le (little_endian h) d ->
       sortF v index num d pf =
       Ok (Some (mkPos33SortMsg
                   (Some (mkSortHash h (int64 index) (int32 num))) pf))) /\
      (d <> S754_nan -> ~ ratio_le (little_endian h) d ->
       sortF v index num d pf = Ok None)) /\
  (forall (lib : Chain33) n height ty seed m sh pf inp,
      Pos33SortBlocks < height ->
      parts m = Some (sh, pf, inp) ->
      Index sh < queryTicketCount n (PubKeyToAddr (Pubkey pf))
                                  (verifier_snapshot height) ->
      Height inp = height -> Seed inp = seed -> Ty inp = int32 ty ->
      vrfVerify (Pubkey pf)
                (Encode (mkVrfInput seed height (Round inp) (int32 ty)))
                (VrfProof pf) (VrfHash pf) = None ->
      let h := Sha256 (Sha256 (bytes_of_string
                 (Text.ticket_text (VrfHash pf) (Index sh) (Num sh)))) in
      (Hash sh = h ->
       verifySort n height ty seed m =
       diffVerdict h (getDiff n height (int (Round inp)))) /\
      (Hash sh <> h ->
       verifySort n height ty seed m = Ok (Some (Errorf "sort hash error")))) /\
  (forall (lib : Chain33) n height ty seed m,
      Pos33SortBlocks < height ->
      verifySort n height ty seed m = Ok None ->
      exists sh pf inp, parts m = Some (sh, pf, inp) /\
        Hash sh =
        Sha256 (Sha256 (bytes_of_string
                  (Text.ticket_text (VrfHash pf) (Index sh) (Num sh))))).
Proof.
  assert (H1 : forall v index num,
             hash2 (ticketData v index num) =
             Sha256 (Sha256 (bytes_of_string (Text.ticket_text v index num)))).
  { intros v index num. unfold hash2, ticketData.
    rewrite sprintf_ticket_text. reflexivity. }
  split; [exact H1|]. split; [|split].
  - intros v index num d pf. cbv zeta. rewrite <- H1.
    unfold sortF. fold (ticketData v index num). split.
    + intros Hle. apply threshold_ok_iff in Hle as (c & Hc & Hc0).
      rewrite Hc. cbn [bind].
      destruct (Z.ltb_spec 0 c); [lia | reflexivity].
    + intros Hd Hn.
      destruct (diffCmp_spec (hash2 (ticketData v index num)) d Hd)
        as (c & Hc & Hle).
      rewrite Hc. cbn [bind].
      destruct (Z.ltb_spec 0 c); [reflexivity|].
      exfalso. apply Hn, Hle. assumption.
  - intros lib n height ty seed m sh pf inp Hh Hparts Hidx Hhe Hseed Hty Hvrf.
    cbv zeta. rewrite <- H1. rewrite verifySort_above by exact Hh. split.
    + intros Hhash. rewrite <- Hhash.
      apply (verifyChecks_tail n height ty seed m sh pf inp Hparts).
      unfold checks_before. repeat split; assumption.
    + intros Hhash. unfold verifyChecks. rewrite Hparts.
      destruct (Z.leb_spec
                  (queryTicketCount n (PubKeyToAddr (Pubkey pf))
                                    (verifier_snapshot height)) (Index sh));
        [lia|].
      rewrite Hhe, Z.eqb_refl. cbn [negb].
      rewrite Hseed, bytes_eqb_refl. cbn [negb].
      rewrite Hty, Z.eqb_refl. cbn [negb].
      rewrite Hvrf.
      fold (ticketData (VrfHash pf) (Index sh) (Num sh)).
      destruct (bytes_eqb (hash2 (ticketData (VrfHash pf) (Index sh) (Num sh)))
                          (Hash sh)) eqn:E; [|reflexivity].
      apply bytes_eqb_eq in E. congruence.
  - intros lib n height ty seed m Hh Hv.
    rewrite verifySort_above in Hv by exact Hh.
    apply verifyChecks_accepted in Hv
      as (sh & pf & inp & Hparts & Hbefore & _).
    exists sh, pf, inp. split; [exact Hparts|].
    destruct Hbefore as (_ & _ & _ & _ & _ & Hhash).
    rewrite Hhash. apply H1.
Qed.

(** On the small instance: ticket 1 wins at difficulty 1 with the hash of
    the text, loses at difficulty 2^-9, and its message with another hash
    is answered with the error of the hash. *)
Lemma ticket_hash_demo :
  let h := Sha256 (Sha256 (bytes_of_string
                             (Text.ticket_text (VrfHash demoProof) 1 0))) in
  sortF (VrfHash demoProof) 1 0 one64 (Some demoProof) =
  Ok (Some (mkPos33SortMsg (Some (mkSortHash h 1 0)) (Some demoProof))) /\
  sortF (VrfHash demoProof) 1 0 small64 (Some demoProof) = Ok None /\
  verifySort (lib := demoLib) demoVerifier 100 0 demoSeed
             (Some (with_sortHash (demoMsg 1 0) (mkSortHash hash_01 1 0)))
  = Ok (Some (Errorf "sort hash error")).
Proof.
  destruct ticket_hash_construction as (_ & HsortF & Hverify & _).
  cbv zeta.
  destruct (HsortF (VrfHash demoProof) 1 0 one64 (Some demoProof))
    as [Hwin _].
  destruct (HsortF (VrfHash demoProof) 1 0 small64 (Some demoProof))
    as [_ Hlose].
  destruct (Hverify demoLib demoVerifier 100 0 demoSeed
              (Some (with_sortHash (demoMsg 1 0) (mkSortHash hash_01 1 0)))
              (mkSortHash hash_01 1 0) demoProof demoInput) as [_ Hbad];
    try (vm_compute; reflexivity).
  split; [|split].
  - apply Hwin. vm_compute. discriminate.
  - apply Hlose; [discriminate|].
    intros H. apply Qle_not_lt in H. apply H. vm_compute. reflexivity.
  - apply Hbad. vm_compute. discriminate.
Defined.

Lemma parts_inv m sh pf inp :
  parts (Some m) = Some (sh, pf, inp) ->
  m = mkPos33SortMsg (Some sh) (Some pf) /\ Input pf = Some inp.
Proof.
  destruct m as [[sh'|] [pf'|]]; cbn [parts]; try discriminate.
  destruct (Input pf') as [inp'|] eqn:Hi; [|discriminate].
  intros H. injection H as <- <- <-. split; [reflexivity | exact Hi].
Qed.

Lemma errors_distinct idx count h' height :
  NoDup [errSortIndex idx count height; errHeight h' height;
         ErrVrfVerify; errDiff].
Proof.
  unfold errSortIndex, errHeight.
  repeat constructor; cbn [In]; intros H;
    repeat (destruct H as [H | H]; try discriminate H); try contradiction.
Qed.

Lemma kinds_distinct :
  NoDup [OwnershipClaim; ContextMismatch; CryptographicFailure;
         ThresholdFailure].
Proof.
  repeat constructor; cbn [In]; intros H;
    repeat (destruct H as [H | H]; try discriminate H); try contradiction.
Qed.

Lemma prefix_app (p s : string) : String.prefix p (p ++ s) = true.
Proof.
  induction p as [|a p IH]; cbn [String.append String.prefix].
  - destruct s; reflexivity.
  - destruct (ascii_dec a a) as [_|Hn]; [exact IH | destruct Hn; reflexivity].
Qed.

Lemma kind_of_errSortIndex idx count height :
  kind_of (errSortIndex idx count height) = OwnershipClaim.
Proof.
  unfold kind_of, errSortIndex. rewrite prefix_app. reflexivity.
Qed.

Lemma kind_of_errHeight have height :
  kind_of (errHeight have height) = ContextMismatch.
Proof. reflexivity. Qed.

Lemma set_byte_nth p k b d :
  (k < List.length p)%nat -> nth k (set_byte p k b) d = b.
Proof.
  intros Hk. unfold set_byte.
  assert (Hl : List.length (firstn k p) = k)
    by (apply firstn_length_le; lia).
  rewrite app_nth2 by lia. rewrite Hl, Nat.sub_diag. reflexivity.
Qed.

Lemma set_byte_changes p k b :
  (k < List.length p)%nat -> nth k p x00 <> b -> set_byte p k b <> p.
Proof.
  intros Hk Hb E. apply Hb. rewrite <- E at 1.
  apply set_byte_nth. exact Hk.
Qed.

(** A message that passes the checks before the VRF fails at the VRF when
    the library does not give the claimed hash for its proof. *)
Lemma verifyChecks_vrfProof {lib : Chain33} n height ty seed sh pf inp p' :
  Input pf = Some inp ->
  checks_before n height ty seed sh pf inp ->
  (forall pub, ParsePubKey (Pubkey pf) = Some pub ->
     ProofToHash pub (Encode inp) p' <> Some (VrfHash pf)) ->
  verifyChecks n height ty seed
    (Some (with_vrfProof (mkPos33SortMsg (Some sh) (Some pf)) p'))
  = Ok (Some ErrVrfVerify).
Proof.
  intros Hinp (Hidx & Hhe & Hseed & Hty & Hvrf & Hhash) Hp'.
  unfold verifyChecks, with_vrfProof.
  cbn [parts mSortHash mProof option_map Input]. rewrite Hinp.
  cbn [Pubkey VrfProof VrfHash].
  destruct (Z.leb_spec
              (queryTicketCount n (PubKeyToAddr (Pubkey pf))
                                (verifier_snapshot height)) (Index sh));
    [lia|].
  rewrite Hhe, Z.eqb_refl, Hseed, bytes_eqb_refl, Hty, Z.eqb_refl.
  cbn [negb]. rewrite <- Hty, <- Hhe at 1. rewrite <- Hseed at 1.
  replace (mkVrfInput (Seed inp) (Height inp) (Round inp) (Ty inp))
    with inp by (destruct inp; reflexivity).
  unfold vrfVerify.
  destruct (ParsePubKey (Pubkey pf)) as [pub|] eqn:Hpub; [|reflexivity].
  specialize (Hp' pub eq_refl).
  destruct (ProofToHash pub (Encode inp) p') as [vh|]; [|reflexivity].
  destruct (bytes_eqb vh (VrfHash pf)) eqn:E; [|reflexivity].
  apply bytes_eqb_eq in E. congruence.
Qed.

(** C5, as stated, fails: at a height not above [Pos33SortBlocks] every
    message is accepted, and so is the accepted message after each of the
    four changes. *)
Lemma tamper_bootstrap_counterexample :
  verifySort (lib := demoLib) demoNode 5 0 demoSeed (Some (demoMsg 0 0))
  = Ok None /\
  verifySort (lib := demoLib) demoNode 5 0 demoSeed
             (Some (with_index (demoMsg 0 0) 3))
  = Ok None /\
  verifySort (lib := demoLib) demoNode 5 0 demoSeed
             (Some (with_input_height (demoMsg 0 0) 101))
  = Ok None /\
  verifySort (lib := demoLib) demoNode 5 0 demoSeed
             (Some (with_vrfProof (demoMsg 0 0)
                      (set_byte (VrfProof demoProof) 0 x06)))
  = Ok None /\
  verifySort (lib := demoLib) (with_getDiff demoNode (fun _ _ => small64))
             5 0 demoSeed (Some (demoMsg 0 0))
  = Ok None.
Proof. repeat split; reflexivity. Qed.

(** C5, amended.  At a height above [Pos33SortBlocks], from a message that
    [verifySort] accepts: (a) an index raised to the ledger's ticket count
    or more, (b) another [Proof.Input.Height], (c) a [Proof.VrfProof] with
    one of its bytes changed, (d) an oracle difficulty below the ticket's
    ratio, are each rejected, with errors of four kinds that differ from
    one another: the ownership claim, the context mismatch, the
    cryptographic failure, the threshold failure.  The VRF library is taken
    to reject a proof with a changed byte, as the specification requires of
    the VRF verifier. *)
Theorem verifySort_tamper {lib : Chain33} n height ty seed m :
  vrf_rejects_changed ->
  Pos33SortBlocks < height ->
  verifySort n height ty seed (Some m) = Ok None ->
  exists sh pf inp,
    parts (Some m) = Some (sh, pf, inp) /\
    let count := queryTicketCount n (PubKeyToAddr (Pubkey pf))
                                  (verifier_snapshot height) in
    (forall idx, count <= idx ->
       verifySort n height ty seed (Some (with_index m idx))
       = Ok (Some (errSortIndex idx count height)) /\
       kind_of (errSortIndex idx count height) = OwnershipClaim) /\
    (forall h', h' <> height ->
       verifySort n height ty seed (Some (with_input_height m h'))
       = Ok (Some (errHeight h' height)) /\
       kind_of (errHeight h' height) = ContextMismatch) /\
    (forall k b,
       (k < List.length (VrfProof pf))%nat ->
       nth k (VrfProof pf) x00 <> b ->
       verifySort n height ty seed
                  (Some (with_vrfProof m (set_byte (VrfProof pf) k b)))
       = Ok (Some ErrVrfVerify) /\
       kind_of ErrVrfVerify = CryptographicFailure) /\
    (forall f,
       f height (int (Round inp)) <> S754_nan ->
       ~ ratio_le (little_endian (Hash sh)) (f height (int (Round inp))) ->
       verifySort (with_getDiff n f) height ty seed (Some m)
       = Ok (Some errDiff) /\
       kind_of errDiff = ThresholdFailure) /\
    NoDup [OwnershipClaim; ContextMismatch; CryptographicFailure;
           ThresholdFailure] /\
    (forall idx h',
       NoDup [errSortIndex idx count height; errHeight h' height;
              ErrVrfVerify; errDiff]).
Proof.
  intros Hlib Hh Hv. rewrite verifySort_above in Hv by exact Hh.
  apply verifyChecks_accepted in Hv as (sh & pf & inp & Hparts & Hbefore & Hok).
  exists sh, pf, inp. split; [exact Hparts|]. cbv zeta.
  destruct (parts_inv m sh pf inp Hparts) as [Hm Hinp]. subst m.
  pose proof Hbefore as (Hidx & Hhe & Hseed & Hty & Hvrf & Hhash).
  assert (Hinput : mkVrfInput seed height (Round inp) (int32 ty) = inp).
  { destruct inp as [s0 h0 r0 t0]. cbn [Seed Height Round Ty] in *.
    subst. reflexivity. }
  split; [|split; [|split; [|split; [|split]]]].
  - (* the index *)
    intros idx Hidx'. split; [|apply kind_of_errSortIndex].
    rewrite verifySort_above by exact Hh.
    unfold verifyChecks, with_index.
    cbn [parts mSortHash mProof option_map]. rewrite Hinp.
    cbn [Index Pubkey].
    destruct (Z.leb_spec
                (queryTicketCount n (PubKeyToAddr (Pubkey pf))
                                  (verifier_snapshot height)) idx);
      [reflexivity | lia].
  - (* the height of the input *)
    intros h' Hh'. split; [|apply kind_of_errHeight].
    rewrite verifySort_above by exact Hh.
    unfold verifyChecks, with_input_height.
    cbn [parts mSortHash mProof option_map Input]. rewrite Hinp.
    cbn [option_map Pubkey Height].
    destruct (Z.leb_spec
                (queryTicketCount n (PubKeyToAddr (Pubkey pf))
                                  (verifier_snapshot height)) (Index sh));
      [lia|].
    destruct (Z.eqb_spec h' height); [contradiction | reflexivity].
  - (* the proof of the VRF *)
    intros k b Hk Hb. split; [|reflexivity].
    rewrite verifySort_above by exact Hh.
    apply (verifyChecks_vrfProof n height ty seed sh pf inp _ Hinp Hbefore).
    intros pub Hpub.
    apply vrfVerify_nil in Hvrf as (pub' & Hpub' & Hpth).
    rewrite Hpub in Hpub'. injection Hpub' as <-.
    rewrite Hinput in Hpth.
    apply (Hlib pub (Encode inp) (VrfProof pf) (VrfHash pf) k b Hpth Hk Hb).
  - (* the difficulty *)
    intros f Hnan Hlow. split; [|reflexivity].
    rewrite verifySort_above by exact Hh.
    rewrite (verifyChecks_tail (with_getDiff n f) height ty seed
               (Some (mkPos33SortMsg (Some sh) (Some pf))) sh pf inp
               Hparts Hbefore).
    cbn [getDiff with_getDiff]. apply diffVerdict_errDiff; assumption.
  - apply kinds_distinct.
  - intros idx h'. apply errors_distinct.
Qed.

Lemma demo_vrf_rejects_changed : vrf_rejects_changed (lib := demoLib).
Proof.
  intros pub inb p h k b H Hk Hb.
  cbn [ProofToHash demoLib] in *. unfold demoProofToHash in *.
  destruct (bytes_eqb p pub) eqn:E; [|discriminate].
  apply bytes_eqb_eq in E. subst pub.
  destruct (bytes_eqb (set_byte p k b) p) eqn:E'; [|discriminate].
  apply bytes_eqb_eq in E'.
  destruct (set_byte_changes p k b Hk Hb E').
Qed.

(** On the small instance, at height 100 and on the verifier's node: the
    message of ticket 0 is accepted, and each of the four changes is
    answered with its error. *)
Lemma tamper_demo :
  Pos33SortBlocks < 100 /\
  verifySort (lib := demoLib) demoVerifier 100 0 demoSeed (Some (demoMsg 0 0))
  = Ok None /\
  verifySort (lib := demoLib) demoVerifier 100 0 demoSeed
             (Some (with_index (demoMsg 0 0) 3))
  = Ok (Some (errSortIndex 3 3 100)) /\
  verifySort (lib := demoLib) demoVerifier 100 0 demoSeed
             (Some (with_input_height (demoMsg 0 0) 101))
  = Ok (Some (errHeight 101 100)) /\
  verifySort (lib := demoLib) demoVerifier 100 0 demoSeed
             (Some (with_vrfProof (demoMsg 0 0)
                      (set_byte (VrfProof demoProof) 0 x06)))
  = Ok (Some ErrVrfVerify) /\
  verifySort (lib := demoLib) (with_getDiff demoVerifier (fun _ _ => small64))
             100 0 demoSeed (Some (demoMsg 0 0))
  = Ok (Some errDiff).
Proof.
  assert (Hh : Pos33SortBlocks < 100) by (unfold Pos33SortBlocks; lia).
  assert (Hv : verifySort (lib := demoLib) demoVerifier 100 0 demoSeed
                          (Some (demoMsg 0 0)) = Ok None)
    by (vm_compute; reflexivity).
  split; [exact Hh|]. split; [exact Hv|].
  destruct (verifySort_tamper (lib := demoLib) demoVerifier 100 0 demoSeed
              (demoMsg 0 0) demo_vrf_rejects_changed Hh Hv)
    as (sh & pf & inp & Hparts & Ha & Hb & Hc & Hd & _).
  assert (Hp : parts (Some (demoMsg 0 0)) =
               Some (mkSortHash (hash2 (ticketData (VrfHash demoProof) 0 0)) 0 0,
                     demoProof, demoInput))
    by (vm_compute; reflexivity).
  rewrite Hp in Hparts. injection Hparts as <- <- <-.
  assert (Hcount : queryTicketCount demoVerifier
                     (PubKeyToAddr (Chain33 := demoLib) (Pubkey demoProof))
                     (verifier_snapshot 100) = 3)
    by (vm_compute; reflexivity).
  rewrite Hcount in Ha.
  split; [|split; [|split]].
  - apply Ha. lia.
  - apply Hb. lia.
  - apply Hc; [vm_compute; lia | vm_compute; discriminate].
  - apply Hd; [discriminate|].
    intros H. apply Qle_not_lt in H. apply H. vm_compute. reflexivity.
Defined.

(** C6.  Above the bootstrap height, a message with all its parts whose
    index is not below the ticket count that the ledger reports, at the
    verifier's snapshot height, for the address of [Proof.Pubkey] is
    rejected. *)
Theorem verifySort_ownership {lib : Chain33} n height ty seed m sh pf inp :
  Pos33SortBlocks < height ->
  parts m = Some (sh, pf, inp) ->
  queryTicketCount n (PubKeyToAddr (Pubkey pf)) (verifier_snapshot height)
    <= Index sh ->
  verifySort n height ty seed m =
  Ok (Some (errSortIndex
              (Index sh)
              (queryTicketCount n (PubKeyToAddr (Pubkey pf))
                                (verifier_snapshot height))
              height)).
Proof.
  intros Hh Hparts Hcount. rewrite verifySort_above by exact Hh.
  unfold verifyChecks. rewrite Hparts.
  destruct (Z.leb_spec
              (queryTicketCount n (PubKeyToAddr (Pubkey pf))
                                (verifier_snapshot height)) (Index sh));
    [reflexivity | lia].
Qed.

Lemma ownership_demo :
  verifySort (lib := demoLib) demoNode 100 0 demoSeed (Some (demoMsg 3 0))
  = Ok (Some (errSortIndex 3 3 100)).
Proof.
  apply (verifySort_ownership (lib := demoLib) demoNode 100 0 demoSeed
           (Some (demoMsg 3 0))
           (mkSortHash (hash2 (ticketData (VrfHash demoProof) 3 0)) 3 0)
           demoProof demoInput).
  - unfold Pos33SortBlocks. lia.
  - reflexivity.
  - vm_compute. discriminate.
Defined.

(** C7.  There is a minimum height, [Pos33SortBlocks + 1], below which
    [verifySort] accepts every message, nil and incomplete ones too, whatever
    the node and its oracles answer, and from which on its result is that
    of the sequence of checks, which rejects the nil message first. *)
Theorem verifySort_bootstrap_carveout :
  exists minHeight,
    minHeight = Pos33SortBlocks + 1 /\
    (forall (lib : Chain33) n height ty seed m,
        height < minHeight -> verifySort n height ty seed m = Ok None) /\
    (forall (lib : Chain33) n height ty seed m,
        minHeight <= height ->
        verifySort n height ty seed m = verifyChecks n height ty seed m) /\
    (forall (lib : Chain33) n height ty seed,
        minHeight <= height ->
        verifySort n height ty seed None =
        Ok (Some (Errorf "verifySort error: sort msg is nil"))).
Proof.
  exists (Pos33SortBlocks + 1). split; [reflexivity|]. repeat split.
  - intros lib n height ty seed m H. apply verifySort_bootstrap. lia.
  - intros lib n height ty seed m H. apply verifySort_above. lia.
  - intros lib n height ty seed H. rewrite verifySort_above by lia.
    reflexivity.
Qed.

(** C8.  [verifySort] ties [SortHash.Num] to nothing: the producer always
    emits 0, yet for a message that passes the checks before the hash
    equality, any number put in [Num], with the hash computed over it,
    passes the hash equality too, and the result is that of the threshold
    test alone. *)
Theorem verifySort_num_unconstrained {lib : Chain33} :
  (forall n seed height round ty out m sh,
      committeeSort n seed height round ty out -> In m out ->
      mSortHash m = Some sh -> Num sh = 0) /\
  (forall n height ty seed m sh pf inp num,
      Pos33SortBlocks < height ->
      parts (Some m) = Some (sh, pf, inp) ->
      checks_before n height ty seed sh pf inp ->
      let sh' := mkSortHash (hash2 (ticketData (VrfHash pf) (Index sh) num))
                            (Index sh) num in
      verifySort n height ty seed (Some (with_sortHash m sh')) =
      diffVerdict (Hash sh') (getDiff n height (int (Round inp)))).
Proof.
  split.
  - intros n seed height round ty out m sh Hcs Hin Hsh.
    destruct (committeeSort_inv n seed height round ty out m Hcs Hin)
      as (priv & i & _ & _ & Hs).
    cbv zeta in Hs. apply sortF_inv in Hs as [Hm _]. subst m.
    cbn [mSortHash] in Hsh. injection Hsh as <-. reflexivity.
  - intros n height ty seed m sh pf inp num Hh Hparts Hbefore sh'.
    rewrite verifySort_above by exact Hh.
    destruct (parts_inv m sh pf inp Hparts) as [Hm Hinp]. subst m.
    apply (verifyChecks_tail n height ty seed _ sh' pf inp).
    + unfold with_sortHash. cbn [parts mProof]. rewrite Hinp. reflexivity.
    + destruct Hbefore as (Hidx & Hhe & Hseed & Hty & Hvrf & Hhash).
      unfold checks_before, sh'. cbn [Index Hash Num].
      repeat split; assumption || reflexivity.
Qed.

Lemma num_unconstrained_demo :
  verifySort (lib := demoLib) demoNode 100 0 demoSeed (Some (demoMsg 0 5))
  = Ok None.
Proof.
  assert (Hh : Pos33SortBlocks < 100) by (unfold Pos33SortBlocks; lia).
  assert (Hb : checks_before (lib := demoLib) demoNode 100 0 demoSeed
                 (mkSortHash (hash2 (ticketData (VrfHash demoProof) 0 0)) 0 0)
                 demoProof demoInput).
  { repeat split; vm_compute; reflexivity. }
  pose proof (proj2 (verifySort_num_unconstrained (lib := demoLib))
                demoNode 100 0 demoSeed (demoMsg 0 0) _ demoProof demoInput 5
                Hh eq_refl Hb) as H.
  cbv zeta in H. etransitivity; [exact H|]. vm_compute. reflexivity.
Defined.

(** C9.  What [doSort] returns is, up to order, the list of the non-nil
    results of [sortF] for the indices from 0 up to [count], each index
    evaluated once; when [diff] is not a NaN the call does return, the
    winners in index order being one outcome; and for a [count] of 0 (or
    below) the result is empty. *)
Theorem doSort_result cap vrfHash count num diff proof :
  (forall out,
      doSort cap vrfHash count num diff proof out ->
      Permutation out
        (flat_map (fun i => match sortF vrfHash i num diff proof with
                            | Ok (Some m) => [m]
                            | _ => []
                            end) (indices count))) /\
  (diff <> S754_nan ->
   doSort cap vrfHash count num diff proof
          (wins vrfHash num diff proof (indices count))) /\
  (count <= 0 ->
   forall out, doSort cap vrfHash count num diff proof out <-> out = []).
Proof.
  split; [|split].
  - intros out H. apply doSort_sound in H. exact H.
  - intros Hd. apply doSort_seq_run. apply doSort_seq_total. exact Hd.
  - intros Hc out. split.
    + intros H. apply doSort_sound in H.
      unfold indices in H. replace (Z.to_nat count) with 0%nat in H by lia.
      cbn in H. apply Permutation_nil. symmetry. exact H.
    + intros ->. exists (doSort_start).
      split; [apply steps_refl|]. cbn [coll_j msgs doSort_start].
      split; [lia | reflexivity].
Qed.

Lemma doSort_demo :
  Permutation [demoMsg 0 0; demoMsg 1 0; demoMsg 2 0]
    (flat_map (fun i => match sortF (VrfHash demoProof) i 0 one64
                                    (Some demoProof) with
                        | Ok (Some m) => [m]
                        | _ => []
                        end) (indices 3)).
Proof.
  apply (proj1 (doSort_result 0 (VrfHash demoProof) 3 0 one64 (Some demoProof))).
  apply doSort_seq_run. vm_compute. reflexivity.
Defined.

(** C10.  Without a private key [committeeSort] returns nil, and nothing
    else, whatever the ledger and the difficulty oracle answer. *)
Theorem committeeSort_no_key {lib : Chain33} n seed height round ty :
  getPriv n = None ->
  forall out, committeeSort n seed height round ty out <-> out = [].
Proof.
  intros Hpriv out. unfold committeeSort. rewrite Hpriv. reflexivity.
Qed.

Lemma no_key_demo :
  committeeSort (lib := demoLib) demoNodeNoKey demoSeed 100 0 0 [].
Proof.
  apply (committeeSort_no_key (lib := demoLib) demoNodeNoKey demoSeed 100 0 0).
  - reflexivity.
  - reflexivity.
Defined.

(** * Further properties of the code *)

(** ** Lengths of hashes *)

Lemma be_bytes_length n x : List.length (SHA256.be_bytes n x) = n.
Proof. induction n as [|n IH]; cbn [SHA256.be_bytes List.length]; congruence. Qed.

Lemma compress_length h block : List.length (SHA256.compress h block) = 8%nat.
Proof.
  unfold SHA256.compress. rewrite length_map, length_combine. reflexivity.
Qed.

Lemma blocks_length fuel h bs :
  List.length h = 8%nat -> List.length (SHA256.blocks fuel h bs) = 8%nat.
Proof.
  revert h bs. induction fuel as [|f IH]; intros h bs Hh; cbn [SHA256.blocks].
  - exact Hh.
  - destruct bs as [|b bs]; [exact Hh|]. apply IH. apply compress_length.
Qed.

Lemma flat_map_be_bytes_length l :
  List.length (flat_map (SHA256.be_bytes 4) l) = (4 * List.length l)%nat.
Proof.
  induction l as [|x l IH]; [reflexivity|].
  cbn [flat_map]. rewrite length_app, be_bytes_length, IH.
  cbn [List.length]. lia.
Qed.

Lemma Sha256_length b : List.length (Sha256 b) = 32%nat.
Proof.
  unfold Sha256, SHA256.Sum256, SHA256.digest.
  rewrite length_map, flat_map_be_bytes_length, blocks_length; reflexivity.
Qed.

Lemma little_endian_bound h :
  little_endian h < 256 ^ Z.of_nat (List.length h).
Proof.
  induction h as [|b r IH].
  - cbn. lia.
  - cbn [little_endian List.length]. rewrite Nat2Z.inj_succ, Z.pow_succ_r by lia.
    pose proof (byte_val_range b). lia.
Qed.

Lemma hash2_below_max data : 0 <= little_endian (hash2 data) < 2 ^ 256.
Proof.
  split; [apply little_endian_nonneg|].
  pose proof (little_endian_bound (hash2 data)) as H.
  unfold hash2 in *. rewrite Sha256_length in H. exact H.
Qed.

(** ** [sortF] by the difficulty *)

Lemma sortF_nan v i nm pf :
  sortF v i nm S754_nan pf = Panic "NewFloat(NaN)".
Proof. unfold sortF. rewrite diffCmp_nan. reflexivity. Qed.

Lemma sortF_win v i nm d pf :
  ratio_le (little_endian (hash2 (ticketData v i nm))) d ->
  sortF v i nm d pf = Ok (Some (sortMsg v i nm pf)).
Proof.
  intros H. apply threshold_ok_iff in H as (c & Hc & Hle).
  unfold sortF. fold (ticketData v i nm). rewrite Hc. cbn [bind].
  destruct (Z.ltb_spec 0 c); [lia | reflexivity].
Qed.

Lemma sortF_lose v i nm d pf :
  d <> S754_nan ->
  ~ ratio_le (little_endian (hash2 (ticketData v i nm))) d ->
  sortF v i nm d pf = Ok None.
Proof.
  intros Hd Hn.
  destruct (diffCmp_spec (hash2 (ticketData v i nm)) d Hd) as (c & Hc & Hle).
  unfold sortF. fold (ticketData v i nm). rewrite Hc. cbn [bind].
  destruct (Z.ltb_spec 0 c); [reflexivity|].
  exfalso. apply Hn, Hle. assumption.
Qed.

Lemma one64_is_one : (float64_Q false 4503599627370496 (-52) == 1)%Q.
Proof. vm_compute. reflexivity. Qed.

Lemma ratio_le_one y : y < 2 ^ 256 -> ratio_le y one64.
Proof.
  intros Hy. unfold ratio_le, one64. rewrite one64_is_one.
  apply Qle_shift_div_r; [reflexivity|].
  rewrite Qmult_1_l, <- Zle_Qle. lia.
Qed.

Lemma ratio_le_mono y d1 d2 :
  ratio_le y d1 -> f64_le d1 d2 -> ratio_le y d2.
Proof.
  destruct d1 as [s1 | s1 | | s1 m1 e1], d2 as [s2 | s2 | | s2 m2 e2];
    cbn [ratio_le f64_le f64_Q]; try destruct s1; try destruct s2;
    try tauto; try congruence; try discriminate;
    intros H1 H2; try reflexivity; try contradiction;
    try (eapply Qle_trans; [exact H1 | exact H2]).
Qed.

Lemma ratio_le_negative y d : 0 <= y -> f64_negative d -> ~ ratio_le y d.
Proof.
  intros Hy Hd H. pose proof (ratio_sign y Hy) as Hr.
  destruct d as [s | s | | s m e]; cbn [f64_negative] in Hd;
    try contradiction; destruct s; try contradiction; cbn [ratio_le] in H.
  - discriminate.
  - apply (Qlt_irrefl 0). eapply Qle_lt_trans; [exact Hr|].
    eapply Qle_lt_trans; [exact H | apply float64_Q_neg].
Qed.

Lemma ratio_le_zero y s : 0 <= y -> (ratio_le y (S754_zero s) <-> y = 0).
Proof.
  intros Hy. cbn [ratio_le]. split.
  - intros H. destruct (Z.eq_dec y 0) as [|Hn]; [assumption|].
    exfalso. apply (Qlt_irrefl 0).
    eapply Qlt_le_trans; [apply (ratio_pos y); lia | exact H].
  - intros ->. vm_compute. discriminate.
Qed.

(** X4.  A difficulty of 1 or more selects every ticket. *)
Theorem sortF_diff_one_selects_all v i nm d pf :
  f64_le one64 d ->
  sortF v i nm d pf = Ok (Some (sortMsg v i nm pf)).
Proof.
  intros Hd. apply sortF_win.
  apply (ratio_le_mono _ one64); [|exact Hd].
  apply ratio_le_one. apply hash2_below_max.
Qed.

(** X5.  A negative difficulty selects no ticket, and a difficulty of zero
    only a ticket whose hash is all zero. *)
Theorem sortF_diff_low v i nm d pf :
  (f64_negative d -> sortF v i nm d pf = Ok None) /\
  (forall s, d = S754_zero s ->
     little_endian (hash2 (ticketData v i nm)) <> 0 ->
     sortF v i nm d pf = Ok None) /\
  (forall s, d = S754_zero s ->
     little_endian (hash2 (ticketData v i nm)) = 0 ->
     sortF v i nm d pf = Ok (Some (sortMsg v i nm pf))).
Proof.
  pose proof (hash2_below_max (ticketData v i nm)) as [Hy _].
  repeat split.
  - intros Hd. apply sortF_lose.
    + destruct d; cbn in Hd; try contradiction; discriminate.
    + apply ratio_le_negative; assumption.
  - intros s -> Hn. apply sortF_lose; [discriminate|].
    rewrite ratio_le_zero by exact Hy. exact Hn.
  - intros s -> Hz. apply sortF_win. apply ratio_le_zero; assumption.
Qed.

(** X6.  Raising the difficulty keeps every winner, with the same message. *)
Theorem sortF_monotone v i nm d1 d2 pf m :
  sortF v i nm d1 pf = Ok (Some m) -> f64_le d1 d2 ->
  sortF v i nm d2 pf = Ok (Some m).
Proof.
  intros H1 Hle. apply sortF_inv in H1 as [Hm Hok]. subst m.
  apply sortF_win. apply threshold_ok_iff in Hok.
  eapply ratio_le_mono; eassumption.
Qed.

(** ** More on the worker pool *)

Section DoSortMore.

Variable cap : nat.
Variables (vrfHash0 : bytes) (count num0 : Z) (diff0 : float64)
          (proof0 : option HashProof).

Local Abbreviation job' := (job vrfHash0 num0 diff0 proof0).
Local Abbreviation wins' := (wins vrfHash0 num0 diff0 proof0).
Local Abbreviation step' := (step cap vrfHash0 count num0 diff0 proof0).
Local Abbreviation steps' := (steps cap vrfHash0 count num0 diff0 proof0).
Local Abbreviation Inv' := (Inv vrfHash0 count num0 diff0 proof0).
Local Abbreviation evaluated' := (evaluated vrfHash0 num0 diff0 proof0).

Lemma In_pending k q ws1 w ws2 :
  In k (map index (q ++ flat_map held (ws1 ++ w :: ws2))) <->
  In k (map index q) \/ In k (map index (flat_map held ws1)) \/
  In k (map index (held w)) \/ In k (map index (flat_map held ws2)).
Proof.
  rewrite held_split, !map_app, !in_app_iff. tauto.
Qed.

Lemma evaluated_step done p p' :
  Inv' done p -> evaluated' p -> step' p p' -> evaluated' p'.
Proof.
  intros [Hi _ _ Hjob Hsent _ _] Hev Hstep.
  destruct Hstep; unfold evaluated, pending in *;
    cbn [feed_i sortCh workers] in *; intros k Hk.
  - (* buffer *)
    rewrite <- app_assoc, !map_app, !in_app_iff. cbn [map app In index job].
    destruct (Z.eq_dec k i) as [->|Hne]; [left; right; left; left; reflexivity|].
    destruct (Hev k ltac:(lia)) as [Hin | Hok]; [|right; exact Hok].
    rewrite map_app, in_app_iff in Hin. left. tauto.
  - (* handoff *)
    rewrite In_pending. cbn [held map In index job].
    destruct (Z.eq_dec k i) as [->|Hne]; [left; right; right; left; left; reflexivity|].
    destruct (Hev k ltac:(lia)) as [Hin | Hok]; [|right; exact Hok].
    rewrite In_pending in Hin. cbn [held map In] in Hin. left. tauto.
  - (* receive *)
    rewrite In_pending. cbn [held map In].
    destruct (Hev k Hk) as [Hin | Hok]; [|right; exact Hok].
    rewrite In_pending in Hin. cbn [held map In] in Hin. left. tauto.
  - (* sortF *)
    rewrite In_pending. cbn [held map In].
    destruct (Hev k Hk) as [Hin | Hok]; [|right; exact Hok].
    rewrite In_pending in Hin. cbn [held map In] in Hin. left. tauto.
  - (* collect *)
    rewrite In_pending. cbn [held map In].
    destruct (Hev k Hk) as [Hin | Hok]; [|right; exact Hok].
    rewrite In_pending in Hin. cbn [held map In] in Hin.
    destruct Hin as [Hin | [Hin | [[Hin | []] | Hin]]]; try (left; tauto).
    right. exists r.
    apply Forall_split in Hsent as (_ & Hsr & _). cbn [sent_ok] in Hsr.
    apply Forall_app in Hjob as [_ Hjob]. rewrite held_split in Hjob.
    apply Forall_app in Hjob as [_ Hjob]. inversion Hjob as [|? ? Hs _]; subst.
    rewrite Hs in Hsr. exact Hsr.
Qed.

Lemma evaluated_steps p :
  steps' doSort_start p -> exists done, Inv' done p /\ evaluated' p.
Proof.
  intros H. remember doSort_start as p0 eqn:Hp0.
  induction H as [|p1 p2 p3 _ IH Hstep]; subst.
  - exists []. split; [apply Inv_start|].
    intros k Hk. cbn in Hk. lia.
  - destruct (IH eq_refl) as (done & HI & Hev).
    destruct (Inv_step cap _ _ _ _ _ done p2 p3 HI Hstep) as [done' HI'].
    exists done'. split; [exact HI'|].
    exact (evaluated_step done p2 p3 HI Hev Hstep).
Qed.

Lemma doSort_evaluated out i :
  doSort cap vrfHash0 count num0 diff0 proof0 out -> 0 <= i < count ->
  exists r, sortF vrfHash0 i num0 diff0 proof0 = Ok r.
Proof.
  intros (p & Hsteps & Hfin & _) Hi.
  destruct (evaluated_steps p Hsteps) as (done & [Hi' Hj Hperm _ _ _ _] & Hev).
  pose proof (Permutation_length Hperm) as Hlen.
  rewrite length_app in Hlen. unfold upto in Hlen at 1.
  rewrite length_map, length_seq in Hlen.
  assert (Hnil : map index (pending p) = [])
    by (apply length_zero_iff_nil; lia).
  destruct (Hev i ltac:(lia)) as [Hin | Hok]; [|exact Hok].
  rewrite Hnil in Hin. destruct Hin.
Qed.

(** X7.  When [doSort] returns, [sortF] has returned, without a panic, for
    every index below [count], and the in-order schedule gives a result
    too. *)
Theorem doSort_returns_evaluated out :
  doSort cap vrfHash0 count num0 diff0 proof0 out ->
  Forall (fun i => exists r, sortF vrfHash0 i num0 diff0 proof0 = Ok r)
         (indices count) /\
  exists out', doSort_seq vrfHash0 num0 diff0 proof0 (indices count) = Ok out'.
Proof.
  intros H.
  assert (Hall : Forall (fun i => exists r,
                           sortF vrfHash0 i num0 diff0 proof0 = Ok r)
                        (indices count)).
  { apply Forall_forall. intros i Hi.
    change (indices count) with (upto count) in Hi. apply In_upto in Hi.
    eapply doSort_evaluated; eassumption. }
  split; [exact Hall|].
  induction Hall as [|i l [r Hr] _ [out' IH]]; cbn [doSort_seq].
  - eexists. reflexivity.
  - unfold sortF_arg, job. cbn [vrfHash index num diff proof].
    rewrite Hr, IH. cbn [bind]. eexists. reflexivity.
Qed.

(** X8.  With a NaN difficulty and tickets to draw, [doSort] does not
    return: a worker panics. *)
Theorem doSort_nan_no_return out :
  diff0 = S754_nan -> 0 < count ->
  ~ doSort cap vrfHash0 count num0 diff0 proof0 out.
Proof.
  intros Hd Hc H.
  destruct (doSort_evaluated out 0 H ltac:(lia)) as [r Hr].
  rewrite Hd, sortF_nan in Hr. discriminate.
Qed.

Lemma wins_In l i m :
  In i l -> sortF vrfHash0 i num0 diff0 proof0 = Ok (Some m) ->
  In m (wins' l).
Proof.
  intros Hi Hs. unfold wins. apply in_flat_map. exists i.
  split; [exact Hi|]. unfold sortF_arg, job.
  cbn [vrfHash index num diff proof]. rewrite Hs. left. reflexivity.
Qed.

Lemma wins_length l : (List.length (wins' l) <= List.length l)%nat.
Proof.
  induction l as [|i l IH]; [apply Nat.le_refl|].
  unfold wins in *. cbn [flat_map]. rewrite length_app.
  destruct (sortF_arg (job' i)) as [[m|]|w]; cbn [List.length]; lia.
Qed.

Lemma indices_NoDup : NoDup (indices count).
Proof.
  unfold indices. apply Lists.Finite.Injective_map_NoDup.
  - intros a b. apply Nat2Z.inj.
  - apply seq_NoDup.
Qed.

Lemma wins_index l m :
  Forall in_int64 l -> In m (wins' l) -> In (msg_index m) l.
Proof.
  intros Hl Hm. apply In_wins in Hm as (i & Hi & Hs).
  apply sortF_inv in Hs as [-> _]. cbn [msg_index mSortHash Index].
  rewrite int64_small; [exact Hi|].
  rewrite Forall_forall in Hl. apply Hl. exact Hi.
Qed.

Lemma wins_NoDup l :
  NoDup l -> Forall in_int64 l -> NoDup (map msg_index (wins' l)).
Proof.
  induction 1 as [|i l Hni Hnd IH]; intros Hl; [constructor|].
  inversion Hl as [|? ? Hi Hl']; subst.
  unfold wins. cbn [flat_map]. fold (wins' l). rewrite map_app.
  destruct (sortF_arg (job' i)) as [[m|]|w] eqn:Hs; cbn [map app];
    try (apply IH; exact Hl').
  constructor; [|apply IH; exact Hl'].
  unfold sortF_arg, job in Hs. cbn [vrfHash index num diff proof] in Hs.
  apply sortF_inv in Hs as [-> _]. cbn [msg_index mSortHash Index].
  rewrite int64_small by exact Hi.
  intros Hin. apply in_map_iff in Hin as (m' & Hm' & Hin').
  apply (wins_index l m' Hl') in Hin'. rewrite Hm' in Hin'. contradiction.
Qed.

Lemma indices_in_int64 : count <= 2 ^ 63 -> Forall in_int64 (indices count).
Proof.
  intros Hc. apply Forall_forall. intros i Hi.
  change (indices count) with (upto count) in Hi.
  apply In_upto in Hi. unfold in_int64. lia.
Qed.

(** X9.  What [doSort] returns for a [count] that fits [int]: at most
    [count] messages, each the message of [sortF] for an index below
    [count], with [proof] and [int32(num)] in it, and no index twice. *)
Theorem doSort_output_shape out :
  count <= 2 ^ 63 ->
  doSort cap vrfHash0 count num0 diff0 proof0 out ->
  (List.length out <= Z.to_nat count)%nat /\
  NoDup (map msg_index out) /\
  forall m, In m out ->
    exists i, 0 <= i < count /\ m = sortMsg vrfHash0 i num0 proof0 /\
              msg_index m = i.
Proof.
  intros Hc H. apply doSort_sound in H.
  split; [|split].
  - rewrite (Permutation_length H).
    etransitivity; [apply wins_length|].
    unfold indices. rewrite length_map, length_seq. apply Nat.le_refl.
  - apply (Permutation_NoDup (l := map msg_index (wins' (indices count)))).
    + apply Permutation_map. symmetry. exact H.
    + apply wins_NoDup; [apply indices_NoDup | apply indices_in_int64; exact Hc].
  - intros m Hm. apply (Permutation_in _ H) in Hm.
    apply In_wins in Hm as (i & Hi & Hs).
    change (indices count) with (upto count) in Hi. apply In_upto in Hi.
    apply sortF_inv in Hs as [-> _].
    exists i. split; [exact Hi|]. split; [reflexivity|].
    cbn [msg_index mSortHash sortMsg Index]. apply int64_small.
    unfold in_int64. lia.
Qed.

(** X10.  Two returns of [doSort] for the same arguments hold the same
    messages, up to order. *)
Theorem doSort_same_up_to_order out1 out2 :
  doSort cap vrfHash0 count num0 diff0 proof0 out1 ->
  doSort cap vrfHash0 count num0 diff0 proof0 out2 ->
  Permutation out1 out2.
Proof.
  intros H1 H2. apply doSort_sound in H1, H2.
  etransitivity; [exact H1 | symmetry; exact H2].
Qed.

(** X12.  In every state of a call there are eight workers and at most [cap]
    jobs in the buffer of [n.sortCh]. *)
Theorem doSort_pool_bounds p :
  steps' doSort_start p ->
  List.length (workers p) = 8%nat /\ (List.length (sortCh p) <= cap)%nat.
Proof.
  intros H. remember doSort_start as p0 eqn:Hp0.
  induction H as [|p1 p2 p3 _ IH Hstep]; subst.
  - split; [reflexivity | unfold doSort_start; cbn; lia].
  - destruct (IH eq_refl) as [Hw Hq].
    destruct Hstep; cbn [workers sortCh] in *;
      rewrite ?length_app in *; cbn [List.length] in *; lia.
Qed.

(** X13.  No deadlock.  In a state of a call where results are still missing,
    a goroutine can move, or a worker panics. *)
Theorem doSort_no_deadlock p :
  steps' doSort_start p -> coll_j p < count ->
  (exists p', step' p p') \/ crashes p.
Proof.
  intros H Hlt. destruct (Inv_steps cap _ _ _ _ _ p H) as [done HI].
  eapply doSort_progress; eassumption.
Qed.

Lemma steps_n_steps k p1 p2 :
  steps_n cap vrfHash0 count num0 diff0 proof0 k p1 p2 -> steps' p1 p2.
Proof.
  induction 1; [apply steps_refl | eapply steps_step; eassumption].
Qed.

Lemma measure_start : measure count doSort_start = 4 * Z.max 0 count.
Proof.
  unfold measure, doSort_start, runSortition.
  cbn [feed_i sortCh workers List.length repeat fold_right work_left]. lia.
Qed.

(** X14.  A call makes at most [4 * count] steps (none for a [count] below 0):
    one to feed an index, one to take it from the buffer, one to
    evaluate it, one to collect the result. *)
Theorem doSort_steps_bounded k p :
  steps_n cap vrfHash0 count num0 diff0 proof0 k doSort_start p ->
  Z.of_nat k <= 4 * Z.max 0 count.
Proof.
  intros H.
  assert (Hm : 0 <= measure count p /\
               measure count p + Z.of_nat k <= measure count doSort_start).
  { remember doSort_start as p0 eqn:Hp0.
    induction H as [p1|k p1 p2 p3 Hn IH Hstep]; subst.
    - split; [rewrite measure_start|]; lia.
    - destruct (IH eq_refl) as [_ IH'].
      destruct (Inv_steps cap _ _ _ _ _ p2 (steps_n_steps _ _ _ Hn)) as [done HI].
      pose proof (doSort_measure cap _ _ _ _ _ done p2 p3 HI Hstep). lia. }
  rewrite measure_start in Hm. lia.
Qed.

End DoSortMore.

(** X11.  Raising the difficulty only adds winners: what [doSort] returns at
    a difficulty is contained in what it returns at a higher one. *)
Theorem doSort_monotone cap v count nm d1 d2 pf out1 out2 :
  f64_le d1 d2 ->
  doSort cap v count nm d1 pf out1 ->
  doSort cap v count nm d2 pf out2 ->
  incl out1 out2.
Proof.
  intros Hle H1 H2 m Hm. apply doSort_sound in H1, H2.
  apply (Permutation_in _ H1) in Hm.
  apply In_wins in Hm as (i & Hi & Hs).
  apply (Permutation_in (l := wins v nm d2 pf (indices count))).
  - symmetry. exact H2.
  - apply (wins_In v nm d2 pf _ i m Hi).
    apply sortF_inv in Hs as [-> Hok]. apply sortF_win.
    apply threshold_ok_iff in Hok. eapply ratio_le_mono; eassumption.
Qed.

(** ** More on [sortF], [vrfVerify] and [verifySort] *)

Lemma int32_small x : in_int32 x -> int32 x = x.
Proof. intros H. apply wrap_small; [lia | exact H]. Qed.

(** X3.  [sortF] returns for every difficulty that is a number, and panics
    for a NaN. *)
Theorem sortF_returns_iff_number v i nm d pf :
  (d <> S754_nan <-> exists r, sortF v i nm d pf = Ok r) /\
  (d = S754_nan <-> sortF v i nm d pf = Panic "NewFloat(NaN)").
Proof.
  split; split.
  - apply sortF_total.
  - intros [r Hr] ->. rewrite sortF_nan in Hr. discriminate.
  - intros ->. apply sortF_nan.
  - intros H.
    assert (Hcase : d = S754_nan \/ d <> S754_nan)
      by (destruct d; (left; reflexivity) || (right; discriminate)).
    destruct Hcase as [Hd | Hd]; [exact Hd|].
    destruct (sortF_total v i nm d pf Hd) as [r Hr].
    rewrite Hr in H. discriminate.
Qed.

(** X1.  The hash of a ticket, and so the hash in a message of [sortF], has
    32 bytes. *)
Theorem hash2_length data v i nm d pf m :
  List.length (hash2 data) = 32%nat /\
  (sortF v i nm d pf = Ok (Some m) ->
   exists sh, mSortHash m = Some sh /\ List.length (Hash sh) = 32%nat).
Proof.
  split; [apply Sha256_length|].
  intros H. apply sortF_inv in H as [-> _].
  eexists. split; [reflexivity|]. apply Sha256_length.
Qed.

Section VerifyMore.

Context {lib : Chain33}.

(** X15.  [vrfVerify] returns nil exactly when the public key parses and
    [ProofToHash] returns the claimed hash; a key that does not parse, a
    proof that fails and a hash that differs all give [ErrVrfVerify]. *)
Theorem vrfVerify_nil_or_ErrVrfVerify pub inb pr hash :
  (vrfVerify pub inb pr hash = None <->
   exists vrfPub, ParsePubKey pub = Some vrfPub /\
                  ProofToHash vrfPub inb pr = Some hash) /\
  (vrfVerify pub inb pr hash <> None <->
   vrfVerify pub inb pr hash = Some ErrVrfVerify).
Proof.
  split; [apply vrfVerify_nil|]. split.
  - destruct (vrfVerify pub inb pr hash) as [e|] eqn:He; [|congruence].
    intros _. f_equal. eapply vrfVerify_err. exact He.
  - intros ->. discriminate.
Qed.

(** The first check that fails decides the result. *)
Lemma verifyChecks_cases n height ty seed m :
  let r := verifyChecks n height ty seed m in
  (parts m = None /\
   r = Ok (Some (Errorf "verifySort error: sort msg is nil"))) \/
  exists sh pf inp,
    parts m = Some (sh, pf, inp) /\
    let count := queryTicketCount n (PubKeyToAddr (Pubkey pf))
                                  (verifier_snapshot height) in
    ((count <= Index sh /\
      r = Ok (Some (errSortIndex (Index sh) count height))) \/
     (Index sh < count /\
      ((Height inp <> height /\
        r = Ok (Some (errHeight (Height inp) height))) \/
       (Height inp = height /\
        ((Seed inp <> seed /\
          r = Ok (Some (Errorf "verifySort error, seed NOT match"))) \/
         (Seed inp = seed /\
          ((Ty inp <> int32 ty /\
            r = Ok (Some (Errorf "verifySort error, step NOT match"))) \/
           (Ty inp = int32 ty /\
            ((vrfVerify (Pubkey pf)
                (Encode (mkVrfInput seed height (Round inp) (int32 ty)))
                (VrfProof pf) (VrfHash pf) = Some ErrVrfVerify /\
              r = Ok (Some ErrVrfVerify)) \/
             (vrfVerify (Pubkey pf)
                (Encode (mkVrfInput seed height (Round inp) (int32 ty)))
                (VrfProof pf) (VrfHash pf) = None /\
              ((Hash sh <> hash2 (ticketData (VrfHash pf) (Index sh) (Num sh)) /\
                r = Ok (Some (Errorf "sort hash error"))) \/
               (checks_before n height ty seed sh pf inp /\
                r = diffVerdict (Hash sh)
                      (getDiff n height (int (Round inp))))))))))))))).
Proof.
  cbv zeta. unfold verifyChecks.
  destruct (parts m) as [[[sh pf] inp]|] eqn:Hparts; [|left; split; reflexivity].
  right. exists sh, pf, inp. split; [reflexivity|].
  destruct (Z.leb_spec
              (queryTicketCount n (PubKeyToAddr (Pubkey pf))
                                (verifier_snapshot height)) (Index sh));
    [left; split; [assumption | reflexivity]|].
  right. split; [assumption|].
  destruct (Z.eqb_spec (Height inp) height); cbn [negb];
    [|left; split; [assumption | reflexivity]].
  right. split; [assumption|].
  destruct (bytes_eqb (Seed inp) seed) eqn:Hseed; cbn [negb].
  2:{ left. split; [|reflexivity]. intros E.
      apply bytes_eqb_eq in E. congruence. }
  apply bytes_eqb_eq in Hseed. right. split; [assumption|].
  destruct (Z.eqb_spec (Ty inp) (int32 ty)); cbn [negb];
    [|left; split; [assumption | reflexivity]].
  right. split; [assumption|].
  destruct (vrfVerify (Pubkey pf)
              (Encode (mkVrfInput seed height (Round inp) (int32 ty)))
              (VrfProof pf) (VrfHash pf)) as [err|] eqn:Hvrf.
  { left. rewrite (vrfVerify_err _ _ _ _ _ Hvrf). split; reflexivity. }
  right. split; [reflexivity|].
  fold (ticketData (VrfHash pf) (Index sh) (Num sh)).
  destruct (bytes_eqb (hash2 (ticketData (VrfHash pf) (Index sh) (Num sh)))
                      (Hash sh)) eqn:Hhash; cbn [negb].
  2:{ left. split; [|reflexivity]. intros E.
      assert (bytes_eqb (hash2 (ticketData (VrfHash pf) (Index sh) (Num sh)))
                        (Hash sh) = true) by (apply bytes_eqb_eq; congruence).
      congruence. }
  apply bytes_eqb_eq in Hhash. right.
  split; [repeat split; auto|].
  rewrite Hhash. reflexivity.
Qed.

Lemma diffVerdict_cases hash d :
  (d = S754_nan /\ diffVerdict hash d = Panic "NewFloat(NaN)") \/
  (d <> S754_nan /\ ratio_le (little_endian hash) d /\
   diffVerdict hash d = Ok None) \/
  (d <> S754_nan /\ ~ ratio_le (little_endian hash) d /\
   diffVerdict hash d = Ok (Some errDiff)).
Proof.
  assert (Hcase : d = S754_nan \/ d <> S754_nan)
    by (destruct d; (left; reflexivity) || (right; discriminate)).
  destruct Hcase as [-> | Hd].
  - left. split; [reflexivity|]. unfold diffVerdict.
    rewrite diffCmp_nan. reflexivity.
  - right. destruct (diffCmp_spec hash d Hd) as (c & Hc & Hle).
    destruct (Z.le_gt_cases c 0) as [Hc0 | Hc0].
    + left. split; [exact Hd|]. split; [apply Hle; exact Hc0|].
      apply diffVerdict_ok. exists c. split; assumption.
    + right. split; [exact Hd|].
      assert (Hn : ~ ratio_le (little_endian hash) d)
        by (intros H; apply Hle in H; lia).
      split; [exact Hn | apply diffVerdict_errDiff; assumption].
Qed.

(** X16.  [verifySort] accepts exactly at a bootstrap height, or when the
    message has all its parts and every check passes. *)
Theorem verifySort_accepts_iff n height ty seed m :
  verifySort n height ty seed m = Ok None <->
  height <= Pos33SortBlocks \/
  exists sh pf inp,
    parts m = Some (sh, pf, inp) /\
    checks_before n height ty seed sh pf inp /\
    ratio_le (little_endian (Hash sh)) (getDiff n height (int (Round inp))).
Proof.
  split.
  - intros H. destruct (Z.le_gt_cases height Pos33SortBlocks) as [Hb|Hb];
      [left; exact Hb | right].
    rewrite verifySort_above in H by lia.
    apply verifyChecks_accepted in H as (sh & pf & inp & Hp & Hb' & Hok).
    exists sh, pf, inp. rewrite <- threshold_ok_iff. auto.
  - intros [Hb | (sh & pf & inp & Hp & Hb & Hok)].
    + apply verifySort_bootstrap. exact Hb.
    + destruct (Z.le_gt_cases height Pos33SortBlocks) as [Hh|Hh];
        [apply verifySort_bootstrap; exact Hh|].
      rewrite verifySort_above by lia.
      rewrite (verifyChecks_tail n height ty seed m sh pf inp Hp Hb).
      apply diffVerdict_ok, threshold_ok_iff. exact Hok.
Qed.

Ltac first_failing H :=
  cbv zeta in H;
  repeat match type of H with
         | _ \/ _ => destruct H as [H | H]
         | _ /\ _ => let H' := fresh "Hc" in destruct H as [H' H]
         end.

(** X17.  [verifySort] panics exactly when every check before the threshold
    test passes and the difficulty oracle answers a NaN; otherwise it
    returns nil or an error. *)
Theorem verifySort_panics_iff n height ty seed m w :
  verifySort n height ty seed m = Panic w <->
  Pos33SortBlocks < height /\ w = "NewFloat(NaN)"%string /\
  exists sh pf inp,
    parts m = Some (sh, pf, inp) /\
    checks_before n height ty seed sh pf inp /\
    getDiff n height (int (Round inp)) = S754_nan.
Proof.
  split.
  - intros H. destruct (Z.le_gt_cases height Pos33SortBlocks) as [Hb|Hb].
    { rewrite verifySort_bootstrap in H by exact Hb. discriminate. }
    rewrite verifySort_above in H by lia. split; [lia|].
    destruct (verifyChecks_cases n height ty seed m) as [[_ Hr] | Hr].
    { rewrite H in Hr. discriminate. }
    destruct Hr as (sh & pf & inp & Hp & Hr).
    first_failing Hr; try (rewrite H in Hr; discriminate).
    destruct (diffVerdict_cases (Hash sh) (getDiff n height (int (Round inp))))
      as [[Hd Hv] | [(_ & _ & Hv) | (_ & _ & Hv)]];
      rewrite Hv in Hr; rewrite H in Hr; try discriminate.
    injection Hr as ->. split; [reflexivity|].
    exists sh, pf, inp. auto.
  - intros (Hh & -> & sh & pf & inp & Hp & Hb & Hd).
    rewrite verifySort_above by lia.
    rewrite (verifyChecks_tail n height ty seed m sh pf inp Hp Hb), Hd.
    unfold diffVerdict. rewrite diffCmp_nan. reflexivity.
Qed.

(** X18.  [errDiff] is returned exactly when the message passes every other
    check and its ratio is above the difficulty. *)
Theorem verifySort_errDiff_iff n height ty seed m :
  verifySort n height ty seed m = Ok (Some errDiff) <->
  Pos33SortBlocks < height /\
  exists sh pf inp,
    parts m = Some (sh, pf, inp) /\
    checks_before n height ty seed sh pf inp /\
    getDiff n height (int (Round inp)) <> S754_nan /\
    ~ ratio_le (little_endian (Hash sh)) (getDiff n height (int (Round inp))).
Proof.
  split.
  - intros H. destruct (Z.le_gt_cases height Pos33SortBlocks) as [Hb|Hb].
    { rewrite verifySort_bootstrap in H by exact Hb. discriminate. }
    rewrite verifySort_above in H by lia. split; [lia|].
    destruct (verifyChecks_cases n height ty seed m) as [[_ Hr] | Hr].
    { rewrite H in Hr. discriminate. }
    destruct Hr as (sh & pf & inp & Hp & Hr).
    first_failing Hr; try (rewrite H in Hr; discriminate).
    destruct (diffVerdict_cases (Hash sh) (getDiff n height (int (Round inp))))
      as [[Hd Hv] | [(_ & _ & Hv) | (Hd & Hn & Hv)]];
      rewrite Hv in Hr; rewrite H in Hr; try discriminate.
    exists sh, pf, inp. auto.
  - intros (Hh & sh & pf & inp & Hp & Hb & Hd & Hn).
    rewrite verifySort_above by lia.
    rewrite (verifyChecks_tail n height ty seed m sh pf inp Hp Hb).
    apply diffVerdict_errDiff; assumption.
Qed.

(** X19.  [ErrVrfVerify] is returned exactly when the ownership and context
    checks pass and [vrfVerify] fails. *)
Theorem verifySort_ErrVrfVerify_iff n height ty seed m :
  verifySort n height ty seed m = Ok (Some ErrVrfVerify) <->
  Pos33SortBlocks < height /\
  exists sh pf inp,
    parts m = Some (sh, pf, inp) /\
    Index sh < queryTicketCount n (PubKeyToAddr (Pubkey pf))
                                (verifier_snapshot height) /\
    Height inp = height /\ Seed inp = seed /\ Ty inp = int32 ty /\
    vrfVerify (Pubkey pf)
              (Encode (mkVrfInput seed height (Round inp) (int32 ty)))
              (VrfProof pf) (VrfHash pf) <> None.
Proof.
  split.
  - intros H. destruct (Z.le_gt_cases height Pos33SortBlocks) as [Hb|Hb].
    { rewrite verifySort_bootstrap in H by exact Hb. discriminate. }
    rewrite verifySort_above in H by lia. split; [lia|].
    destruct (verifyChecks_cases n height ty seed m) as [[_ Hr] | Hr].
    { rewrite H in Hr. discriminate. }
    destruct Hr as (sh & pf & inp & Hp & Hr).
    first_failing Hr; try (rewrite H in Hr; discriminate).
    + exists sh, pf, inp. repeat split; try assumption. congruence.
    + destruct (diffVerdict_cases (Hash sh) (getDiff n height (int (Round inp))))
        as [[Hd Hv] | [(_ & _ & Hv) | (Hd & Hn & Hv)]];
        rewrite Hv in Hr; rewrite H in Hr; discriminate.
  - intros (Hh & sh & pf & inp & Hp & Hidx & Hhe & Hseed & Hty & Hvrf).
    rewrite verifySort_above by lia.
    unfold verifyChecks. rewrite Hp.
    destruct (Z.leb_spec
                (queryTicketCount n (PubKeyToAddr (Pubkey pf))
                                  (verifier_snapshot height)) (Index sh));
      [lia|].
    rewrite Hhe, Z.eqb_refl, Hseed, bytes_eqb_refl, Hty, Z.eqb_refl.
    cbn [negb].
    destruct (vrfVerify (Pubkey pf)
                (Encode (mkVrfInput seed height (Round inp) (int32 ty)))
                (VrfProof pf) (VrfHash pf)) as [err|] eqn:He; [|congruence].
    rewrite (vrfVerify_err _ _ _ _ _ He). reflexivity.
Qed.

(** X20.  No replay.  A message accepted at a height above the bootstrap is
    rejected at every other such height, under every other seed, and
    under every type whose 32 low bits differ. *)
Theorem verifySort_no_replay n height ty seed m :
  Pos33SortBlocks < height ->
  verifySort n height ty seed (Some m) = Ok None ->
  (forall height', Pos33SortBlocks < height' -> height' <> height ->
     exists e, verifySort n height' ty seed (Some m) = Ok (Some e)) /\
  (forall seed', seed' <> seed ->
     verifySort n height ty seed' (Some m) =
     Ok (Some (Errorf "verifySort error, seed NOT match"))) /\
  (forall ty', int32 ty' <> int32 ty ->
     verifySort n height ty' seed (Some m) =
     Ok (Some (Errorf "verifySort error, step NOT match"))).
Proof.
  intros Hh Hv. rewrite verifySort_above in Hv by exact Hh.
  apply verifyChecks_accepted in Hv as (sh & pf & inp & Hp & Hb & _).
  destruct Hb as (Hidx & Hhe & Hseed & Hty & _).
  repeat split.
  - intros height' Hh' Hne. rewrite verifySort_above by exact Hh'.
    unfold verifyChecks. rewrite Hp.
    destruct (Z.leb_spec
                (queryTicketCount n (PubKeyToAddr (Pubkey pf))
                                  (verifier_snapshot height')) (Index sh));
      [eexists; reflexivity|].
    destruct (Z.eqb_spec (Height inp) height'); [congruence|].
    eexists. reflexivity.
  - intros seed' Hne. rewrite verifySort_above by exact Hh.
    unfold verifyChecks. rewrite Hp.
    destruct (Z.leb_spec
                (queryTicketCount n (PubKeyToAddr (Pubkey pf))
                                  (verifier_snapshot height)) (Index sh));
      [lia|].
    rewrite Hhe, Z.eqb_refl. cbn [negb].
    destruct (bytes_eqb (Seed inp) seed') eqn:E; [|reflexivity].
    apply bytes_eqb_eq in E. congruence.
  - intros ty' Hne. rewrite verifySort_above by exact Hh.
    unfold verifyChecks. rewrite Hp.
    destruct (Z.leb_spec
                (queryTicketCount n (PubKeyToAddr (Pubkey pf))
                                  (verifier_snapshot height)) (Index sh));
      [lia|].
    rewrite Hhe, Z.eqb_refl, Hseed, bytes_eqb_refl. cbn [negb].
    destruct (Z.eqb_spec (Ty inp) (int32 ty')); [congruence | reflexivity].
Qed.

(** X21.  The verifier accepts only what [sortF] emits.  A message accepted
    above the bootstrap height, with index and number in the range of their
    fields, is the message that [sortF] returns for its own VRF hash,
    index, number and proof at the verifier's difficulty. *)
Theorem verifySort_accepts_sortF n height ty seed m :
  Pos33SortBlocks < height ->
  verifySort n height ty seed (Some m) = Ok None ->
  (forall sh, mSortHash m = Some sh ->
     in_int64 (Index sh) /\ in_int32 (Num sh)) ->
  exists sh pf inp,
    parts (Some m) = Some (sh, pf, inp) /\
    sortF (VrfHash pf) (Index sh) (Num sh)
          (getDiff n height (int (Round inp))) (Some pf) = Ok (Some m).
Proof.
  intros Hh Hv Hrange. rewrite verifySort_above in Hv by exact Hh.
  apply verifyChecks_accepted in Hv as (sh & pf & inp & Hp & Hb & Hok).
  exists sh, pf, inp. split; [exact Hp|].
  destruct (parts_inv m sh pf inp Hp) as [-> _].
  destruct (Hrange sh eq_refl) as [Hi Hn].
  destruct Hb as (_ & _ & _ & _ & _ & Hhash).
  rewrite sortF_win.
  - unfold sortMsg. rewrite <- Hhash, int64_small, int32_small by assumption.
    destruct sh. reflexivity.
  - rewrite <- Hhash. apply threshold_ok_iff. exact Hok.
Qed.

End VerifyMore.

(** ** More on [committeeSort] *)

Section CommitteeMore.

Context {lib : Chain33}.

Lemma committeeSort_doSort n seed height round ty out :
  committeeSort n seed height round ty out <->
  match getPriv n with
  | None => out = []
  | Some priv =>
      let pp := producer_proof seed height round ty priv in
      doSort (sortCh_cap n) (VrfHash pp) (producer_count n height) 0
             (getDiff n height round) (Some pp) out
  end.
Proof.
  unfold committeeSort, producer_proof, producer_count.
  destruct (getPriv n) as [priv|]; [|reflexivity]. cbv zeta.
  destruct (calcuVrfHash (mkVrfInput seed height (int32 round) (int32 ty)) priv)
    as [vh vp]. reflexivity.
Qed.

Lemma producer_count_range n height : producer_count n height <= 2 ^ 63.
Proof.
  pose proof (int_range (queryTicketCount n (myAddr n) (producer_snapshot height)))
    as H. unfold in_int64 in H. unfold producer_count. lia.
Qed.

(** X23.  What [committeeSort] returns for a key: at most as many messages
    as the node has tickets, no index twice, and in each message the same
    proof, made of the input [(seed, height, int32(round), int32(ty))],
    the VRF hash and proof of that input and the public key, the number 0,
    an index below the ticket count and the ticket hash of that index. *)
Theorem committeeSort_output_shape n seed height round ty priv out :
  getPriv n = Some priv ->
  committeeSort n seed height round ty out ->
  let input := mkVrfInput seed height (int32 round) (int32 ty) in
  let pp := mkHashProof (Some input) (fst (calcuVrfHash input priv))
                        (snd (calcuVrfHash input priv))
                        (priv_PubKey_Bytes priv) in
  (List.length out <= Z.to_nat (producer_count n height))%nat /\
  NoDup (map msg_index out) /\
  forall m, In m out ->
    mProof m = Some pp /\
    exists sh, mSortHash m = Some sh /\
      Num sh = 0 /\
      0 <= Index sh < producer_count n height /\
      Hash sh = hash2 (ticketData (VrfHash pp) (Index sh) 0).
Proof.
  intros Hpriv. rewrite committeeSort_doSort, Hpriv. cbv zeta.
  unfold producer_proof.
  destruct (calcuVrfHash (mkVrfInput seed height (int32 round) (int32 ty)) priv)
    as [vh vp]. cbn [fst snd VrfHash].
  intros H. apply doSort_sound in H.
  pose proof (producer_count_range n height) as Hc.
  split; [|split].
  - rewrite (Permutation_length H).
    etransitivity; [apply wins_length|].
    unfold indices. rewrite length_map, length_seq. apply Nat.le_refl.
  - eapply Permutation_NoDup.
    + apply Permutation_map. symmetry. exact H.
    + apply wins_NoDup; [apply indices_NoDup | apply indices_in_int64; exact Hc].
  - intros m Hm. apply (Permutation_in _ H) in Hm.
    apply In_wins in Hm as (i & Hi & Hs).
    change (indices (producer_count n height))
      with (upto (producer_count n height)) in Hi.
    apply In_upto in Hi. apply sortF_inv in Hs as [-> _].
    cbn [mProof mSortHash]. split; [reflexivity|].
    eexists. split; [reflexivity|]. cbn [Num Index Hash].
    rewrite int64_small by (unfold in_int64; lia).
    repeat split; lia.
Qed.

Lemma doSort_no_count cap v count nm d pf out :
  count <= 0 -> (doSort cap v count nm d pf out <-> out = []).
Proof.
  intros Hc. split.
  - intros H. apply doSort_sound in H.
    unfold indices in H. replace (Z.to_nat count) with 0%nat in H by lia.
    cbn in H. apply Permutation_nil. symmetry. exact H.
  - intros ->. exists doSort_start.
    split; [apply steps_refl|]. cbn [coll_j msgs doSort_start].
    split; [lia | reflexivity].
Qed.

(** X24.  With a key but no ticket [committeeSort] returns nil, whatever
    the difficulty; with tickets and a NaN difficulty it does not return. *)
Theorem committeeSort_no_ticket_or_nan n seed height round ty priv out :
  getPriv n = Some priv ->
  (producer_count n height <= 0 ->
   (committeeSort n seed height round ty out <-> out = [])) /\
  (0 < producer_count n height ->
   getDiff n height round = S754_nan ->
   ~ committeeSort n seed height round ty out).
Proof.
  intros Hpriv. rewrite committeeSort_doSort, Hpriv. cbv zeta. split.
  - intros Hc. apply doSort_no_count. exact Hc.
  - intros Hc Hd H. rewrite Hd in H.
    destruct (doSort_evaluated _ _ _ _ _ _ out 0 H ltac:(lia)) as [r Hr].
    rewrite sortF_nan in Hr. discriminate.
Qed.

Lemma wins_all v nm d pf l :
  f64_le one64 d ->
  wins v nm d pf l = map (fun i => sortMsg v i nm pf) l.
Proof.
  intros Hd. induction l as [|i l IH]; [reflexivity|].
  unfold wins in *. cbn [flat_map map]. rewrite IH.
  unfold sortF_arg, job. cbn [vrfHash index num diff proof].
  rewrite sortF_win; [reflexivity|].
  apply (ratio_le_mono _ one64); [|exact Hd].
  apply ratio_le_one. apply hash2_below_max.
Qed.

(** X25.  At a difficulty of 1 or more every ticket of the node wins:
    [committeeSort] returns one message per index below the count. *)
Theorem committeeSort_diff_one_all n seed height round ty priv out :
  getPriv n = Some priv ->
  f64_le one64 (getDiff n height round) ->
  committeeSort n seed height round ty out ->
  let pp := producer_proof seed height round ty priv in
  Permutation out (map (fun i => sortMsg (VrfHash pp) i 0 (Some pp))
                       (indices (producer_count n height))) /\
  List.length out = Z.to_nat (producer_count n height).
Proof.
  intros Hpriv Hd. rewrite committeeSort_doSort, Hpriv. cbv zeta. intros H.
  apply doSort_sound in H. rewrite (wins_all _ _ _ _ _ Hd) in H.
  split; [exact H|].
  rewrite (Permutation_length H), length_map.
  unfold indices. rewrite length_map, length_seq. reflexivity.
Qed.

(** X26.  [committeeSort] returns whenever the difficulty oracle answers a
    number: serving the indices in order is one of its runs. *)
Theorem committeeSort_returns n seed height round ty :
  getDiff n height round <> S754_nan ->
  exists out,
    committeeSort_seq n seed height round ty = Ok out /\
    committeeSort n seed height round ty out.
Proof.
  intros Hd.
  assert (H : exists out, committeeSort_seq n seed height round ty = Ok out).
  { unfold committeeSort_seq.
    destruct (getPriv n) as [priv|]; [|eexists; reflexivity].
    destruct (calcuVrfHash (mkVrfInput seed height (int32 round) (int32 ty)) priv)
      as [vh vp].
    eexists. apply doSort_seq_total. exact Hd. }
  destruct H as [out H]. exists out. split; [exact H|].
  apply committeeSort_seq_run. exact H.
Qed.

End CommitteeMore.

(** ** The text of a ticket determines the ticket *)

Lemma split_at_char c s1 s2 r1 r2 :
  free_of c s1 -> free_of c s2 ->
  (s1 ++ String c r1 = s2 ++ String c r2)%string ->
  s1 = s2 /\ r1 = r2.
Proof.
  revert s2. induction s1 as [|a s1 IH]; intros [|b s2] H1 H2 E;
    cbn [append free_of] in *.
  - injection E as ->. split; reflexivity.
  - injection E as Ec _. destruct H2 as [H2 _]. congruence.
  - injection E as Ec _. destruct H1 as [H1 _]. congruence.
  - injection E as -> E. destruct H1 as [_ H1], H2 as [_ H2].
    destruct (IH s2 H1 H2 E) as [-> ->]. split; reflexivity.
Qed.

Lemma digit_not_plus k : Fmt.digit k <> "+"%char.
Proof.
  unfold Fmt.digit, Fmt.ldigits.
  generalize (Z.to_nat k) as n. intros n.
  do 17 (destruct n as [|n]; [cbn; discriminate|]).
  cbn. discriminate.
Qed.

Lemma hex_free v : free_of "+" (Fmt.hex v).
Proof.
  induction v as [|b v IH]; cbn [Fmt.hex free_of]; [exact I|].
  repeat split; try apply digit_not_plus. exact IH.
Qed.

Lemma string_of_uint_free d :
  free_of "+" (DecimalString.NilEmpty.string_of_uint d).
Proof.
  induction d; cbn [DecimalString.NilEmpty.string_of_uint free_of];
    try exact I; (split; [discriminate | assumption]).
Qed.

Lemma to_int_not_nil z :
  Z.to_int z <> Decimal.Pos Decimal.Nil /\
  Z.to_int z <> Decimal.Neg Decimal.Nil.
Proof.
  destruct z as [|p|p]; cbn [Z.to_int]; split; try discriminate;
    intros [= E]; exact (DecimalPos.Unsigned.to_uint_nonnil p E).
Qed.

Lemma dec_free z : free_of "+" (Fmt.dec z).
Proof.
  rewrite dec_decimal. unfold Text.decimal.
  destruct z as [|p|p]; cbn [Z.to_int DecimalString.NilZero.string_of_int].
  - cbn. repeat split; discriminate.
  - rewrite string_of_to_uint. apply string_of_uint_free.
  - rewrite string_of_to_uint. cbn [free_of].
    split; [discriminate | apply string_of_uint_free].
Qed.

(** The decimal text of [%d] parses back to the integer. *)
Lemma dec_parse z :
  DecimalString.NilZero.int_of_string (Fmt.dec z) = Some (Z.to_int z).
Proof.
  rewrite dec_decimal. unfold Text.decimal.
  destruct (to_int_not_nil z) as [H1 H2].
  apply DecimalString.NilZero.isi; assumption.
Qed.

Lemma dec_inj z z' : Fmt.dec z = Fmt.dec z' -> z = z'.
Proof.
  intros E. apply DecimalZ.to_int_inj.
  pose proof (dec_parse z) as H. rewrite E, dec_parse in H. congruence.
Qed.

Lemma unhex_byte b :
  byte_of (16 * nibble_of (Fmt.digit (Z.shiftr (byte_val b) 4))
           + nibble_of (Fmt.digit (Z.land (byte_val b) 15))) = b.
Proof. destruct b; vm_compute; reflexivity. Qed.

(** The hexadecimal text of [%x] reads back to the slice. *)
Lemma unhex_hex v : unhex (Fmt.hex v) = v.
Proof.
  induction v as [|b v IH]; [reflexivity|].
  cbn [Fmt.hex unhex]. rewrite unhex_byte, IH. reflexivity.
Qed.

Lemma bytes_of_string_inj s s' :
  bytes_of_string s = bytes_of_string s' -> s = s'.
Proof.
  unfold bytes_of_string. intros E.
  rewrite <- (string_of_list_byte_of_string s),
          <- (string_of_list_byte_of_string s'), E. reflexivity.
Qed.

(** X2.  The text hashed for a ticket determines the ticket: two tickets
    whose VRF hash, index or number differ are hashed from different
    texts. *)
Theorem ticketData_injective v i nm v' i' nm' :
  ticketData v i nm = ticketData v' i' nm' ->
  v = v' /\ i = i' /\ nm = nm'.
Proof.
  unfold ticketData, Fmt.sprintf_x_d_d. intros E.
  apply bytes_of_string_inj in E.
  change ("+" ++ ?x)%string with (String "+" x) in E.
  cbn [append] in E.
  apply split_at_char in E as [Ev E]; try apply hex_free.
  apply split_at_char in E as [Ei En]; try apply dec_free.
  split; [|split].
  - rewrite <- (unhex_hex v), <- (unhex_hex v'), Ev. reflexivity.
  - apply dec_inj. exact Ei.
  - apply dec_inj. exact En.
Qed.

(** ** The further properties on the small instance *)

Lemma demo_doSort d :
  f64_le one64 d ->
  doSort 0 (VrfHash demoProof) 3 0 d (Some demoProof)
         [demoMsg 0 0; demoMsg 1 0; demoMsg 2 0].
Proof.
  intros Hd. apply doSort_seq_run.
  rewrite doSort_seq_total by (destruct d; try discriminate; contradiction).
  rewrite wins_all by exact Hd. reflexivity.
Qed.

Lemma one64_le_one64 : f64_le one64 one64.
Proof. vm_compute. discriminate. Qed.

Lemma demo_accepted :
  verifySort (lib := demoLib) demoNode 100 0 demoSeed (Some (demoMsg 0 0))
  = Ok None.
Proof. vm_compute. reflexivity. Qed.

Lemma demo_above : Pos33SortBlocks < 100.
Proof. unfold Pos33SortBlocks. lia. Qed.

Lemma ticketData_injective_demo :
  [x01; x02] = [x01; x02] /\ 2 = 2 /\ 3 = 3.
Proof.
  apply (ticketData_injective [x01; x02] 2 3 [x01; x02] 2 3). reflexivity.
Defined.

Lemma sortF_diff_one_demo :
  sortF (VrfHash demoProof) 1 0 one64 (Some demoProof) =
  Ok (Some (sortMsg (VrfHash demoProof) 1 0 (Some demoProof))).
Proof.
  apply sortF_diff_one_selects_all. vm_compute. discriminate.
Defined.

Lemma sortF_monotone_demo :
  sortF (VrfHash demoProof) 0 0 (S754_infinity false) (Some demoProof) =
  Ok (Some (demoMsg 0 0)).
Proof.
  apply (sortF_monotone _ _ _ one64).
  - vm_compute. reflexivity.
  - exact I.
Defined.

Lemma doSort_returns_evaluated_demo :
  Forall (fun i => exists r,
            sortF (VrfHash demoProof) i 0 one64 (Some demoProof) = Ok r)
         (indices 3) /\
  exists out',
    doSort_seq (VrfHash demoProof) 0 one64 (Some demoProof) (indices 3)
    = Ok out'.
Proof.
  apply (doSort_returns_evaluated 0 _ _ _ _ _
           [demoMsg 0 0; demoMsg 1 0; demoMsg 2 0]).
  apply demo_doSort. vm_compute. discriminate.
Defined.

Lemma doSort_nan_demo :
  ~ doSort 0 (VrfHash demoProof) 3 0 S754_nan (Some demoProof) [].
Proof.
  apply doSort_nan_no_return; [reflexivity | lia].
Defined.

Lemma doSort_output_shape_demo :
  (List.length [demoMsg 0 0; demoMsg 1 0; demoMsg 2 0] <= Z.to_nat 3)%nat /\
  NoDup (map msg_index [demoMsg 0 0; demoMsg 1 0; demoMsg 2 0]).
Proof.
  destruct (doSort_output_shape 0 (VrfHash demoProof) 3 0 one64
              (Some demoProof) [demoMsg 0 0; demoMsg 1 0; demoMsg 2 0])
    as (H1 & H2 & _).
  - vm_compute. discriminate.
  - apply demo_doSort. vm_compute. discriminate.
  - split; assumption.
Defined.

Lemma doSort_same_demo :
  Permutation [demoMsg 0 0; demoMsg 1 0; demoMsg 2 0]
              [demoMsg 0 0; demoMsg 1 0; demoMsg 2 0].
Proof.
  apply (doSort_same_up_to_order 0 (VrfHash demoProof) 3 0 one64
           (Some demoProof));
    apply demo_doSort; vm_compute; discriminate.
Defined.

Lemma doSort_monotone_demo :
  incl [demoMsg 0 0; demoMsg 1 0; demoMsg 2 0]
       [demoMsg 0 0; demoMsg 1 0; demoMsg 2 0].
Proof.
  apply (doSort_monotone 0 (VrfHash demoProof) 3 0 one64 (S754_infinity false)
           (Some demoProof)).
  - exact I.
  - apply demo_doSort. vm_compute. discriminate.
  - apply demo_doSort. exact I.
Defined.

Lemma demo_one_step :
  steps_n 0 (VrfHash demoProof) 3 0 one64 (Some demoProof) 1 doSort_start
    (mkPool 1 []
       (Working (job (VrfHash demoProof) 0 one64 (Some demoProof) 0)
        :: repeat Waiting 7) 0 []).
Proof.
  eapply steps_n_step; [apply steps_n_refl|].
  apply (step_handoff 0 (VrfHash demoProof) 3 0 one64 (Some demoProof)
           0 [] (repeat Waiting 7) 0 []). lia.
Qed.

Lemma doSort_pool_bounds_demo :
  List.length
    (workers (mkPool 1 []
       (Working (job (VrfHash demoProof) 0 one64 (Some demoProof) 0)
        :: repeat Waiting 7) 0 [])) = 8%nat /\
  (List.length
     (sortCh (mkPool 1 []
        (Working (job (VrfHash demoProof) 0 one64 (Some demoProof) 0)
         :: repeat Waiting 7) 0 [])) <= 0)%nat.
Proof.
  apply (doSort_pool_bounds 0 (VrfHash demoProof) 3 0 one64 (Some demoProof)).
  eapply steps_n_steps. exact demo_one_step.
Defined.

Lemma doSort_no_deadlock_demo :
  (exists p', step 0 (VrfHash demoProof) 3 0 one64 (Some demoProof)
                   doSort_start p') \/
  crashes doSort_start.
Proof.
  apply doSort_no_deadlock.
  - apply steps_refl.
  - cbn. lia.
Defined.

Lemma doSort_steps_bounded_demo : Z.of_nat 1 <= 4 * Z.max 0 3.
Proof.
  apply (doSort_steps_bounded 0 (VrfHash demoProof) 3 0 one64 (Some demoProof)
           1 _ demo_one_step).
Defined.

Lemma no_replay_demo :
  exists e,
    verifySort (lib := demoLib) demoNode 101 0 demoSeed (Some (demoMsg 0 0))
    = Ok (Some e).
Proof.
  destruct (verifySort_no_replay (lib := demoLib) demoNode 100 0 demoSeed
              (demoMsg 0 0) demo_above demo_accepted) as (H & _ & _).
  apply H; unfold Pos33SortBlocks; lia.
Defined.

Lemma accepts_sortF_demo :
  exists sh pf inp,
    parts (Some (demoMsg 0 0)) = Some (sh, pf, inp) /\
    sortF (VrfHash pf) (Index sh) (Num sh)
          (getDiff demoNode 100 (int (Round inp))) (Some pf)
    = Ok (Some (demoMsg 0 0)).
Proof.
  apply (verifySort_accepts_sortF (lib := demoLib) demoNode 100 0 demoSeed
           (demoMsg 0 0) demo_above demo_accepted).
  intros sh H. injection H as <-. cbn [Index Num].
  split; [unfold in_int64 | unfold in_int32]; lia.
Defined.

Lemma committeeSort_output_shape_demo :
  (List.length [demoMsg 0 0; demoMsg 1 0; demoMsg 2 0]
   <= Z.to_nat (producer_count demoNode 100))%nat /\
  NoDup (map msg_index [demoMsg 0 0; demoMsg 1 0; demoMsg 2 0]).
Proof.
  destruct (committeeSort_output_shape (lib := demoLib) demoNode demoSeed
              100 0 0 demoKey [demoMsg 0 0; demoMsg 1 0; demoMsg 2 0]
              eq_refl demo_committeeSort) as (H1 & H2 & _).
  split; assumption.
Defined.

Lemma committeeSort_no_ticket_demo :
  producer_count demoNodeNoTicket 100 <= 0 /\
  committeeSort (lib := demoLib) demoNodeNoTicket demoSeed 100 0 0 [] /\
  0 < producer_count demoNodeNaN 100 /\
  getDiff demoNodeNaN 100 0 = S754_nan /\
  ~ committeeSort (lib := demoLib) demoNodeNaN demoSeed 100 0 0 [] /\
  ~ committeeSort (lib := demoLib) demoNodeNaN demoSeed 100 0 0 [demoMsg 0 0].
Proof.
  assert (Hc0 : producer_count demoNodeNoTicket 100 <= 0)
    by (vm_compute; discriminate).
  assert (Hc3 : 0 < producer_count demoNodeNaN 100)
    by (vm_compute; reflexivity).
  destruct (committeeSort_no_ticket_or_nan (lib := demoLib) demoNodeNoTicket
              demoSeed 100 0 0 demoKey [] eq_refl) as [Hnil _].
  destruct (committeeSort_no_ticket_or_nan (lib := demoLib) demoNodeNaN
              demoSeed 100 0 0 demoKey [] eq_refl) as [_ Hnan0].
  destruct (committeeSort_no_ticket_or_nan (lib := demoLib) demoNodeNaN
              demoSeed 100 0 0 demoKey [demoMsg 0 0] eq_refl) as [_ Hnan1].
  split; [exact Hc0|]. split; [apply (Hnil Hc0); reflexivity|].
  split; [exact Hc3|]. split; [reflexivity|].
  split; [exact (Hnan0 Hc3 eq_refl) | exact (Hnan1 Hc3 eq_refl)].
Defined.

Lemma committeeSort_diff_one_demo :
  List.length [demoMsg 0 0; demoMsg 1 0; demoMsg 2 0]
  = Z.to_nat (producer_count demoNode 100).
Proof.
  apply (committeeSort_diff_one_all (lib := demoLib) demoNode demoSeed
           100 0 0 demoKey).
  - reflexivity.
  - exact one64_le_one64.
  - exact demo_committeeSort.
Defined.

Lemma committeeSort_returns_demo :
  exists out,
    committeeSort_seq (lib := demoLib) demoNode demoSeed 100 0 0 = Ok out /\
    committeeSort (lib := demoLib) demoNode demoSeed 100 0 0 out.
Proof.
  apply committeeSort_returns. discriminate.
Defined.
